(** * Packed bubble layout (src/js/parts-more/PackedBubbleSeries.js)

    A shallow embedding of the layout engine of the packed bubble series:
    [getRadius], [checkOverlap], [positionBubble], [placeBubbles] and
    [resizeRadius].  JavaScript numbers are modelled as the reals extended
    with the two infinities and NaN, without rounding (and without the sign
    of zero); a cell of a bubble array holds [null] or such a number. *)

From Stdlib Require Import Reals Lra Psatz List String Ascii ZArith Permutation Sorted.
Import ListNotations.
Open Scope R_scope.

(** ** JavaScript numbers *)

Inductive num : Type :=
| Fin (r : R)
| PInf
| NInf
| NaN.

Definition nneg (x : num) : num :=
  match x with
  | Fin a => Fin (- a)
  | PInf => NInf
  | NInf => PInf
  | NaN => NaN
  end.

Definition nadd (x y : num) : num :=
  match x, y with
  | Fin a, Fin b => Fin (a + b)
  | NaN, _ | _, NaN => NaN
  | PInf, NInf | NInf, PInf => NaN
  | PInf, _ | _, PInf => PInf
  | NInf, _ | _, NInf => NInf
  end.

Definition nsub (x y : num) : num := nadd x (nneg y).

Definition nmul (x y : num) : num :=
  match x, y with
  | Fin a, Fin b => Fin (a * b)
  | NaN, _ | _, NaN => NaN
  | Fin a, i | i, Fin a =>
      if Req_EM_T a 0 then NaN else if Rlt_dec 0 a then i else nneg i
  | PInf, PInf | NInf, NInf => PInf
  | _, _ => NInf
  end.

(** Division by zero gives an infinity, or NaN for [0 / 0]. *)
Definition ndiv (x y : num) : num :=
  match x, y with
  | Fin a, Fin b =>
      if Req_EM_T b 0 then
        (if Req_EM_T a 0 then NaN else if Rlt_dec 0 a then PInf else NInf)
      else Fin (a / b)
  | NaN, _ | _, NaN => NaN
  | Fin _, _ => Fin 0
  | i, Fin b => if Rle_dec 0 b then i else nneg i
  | _, _ => NaN
  end.

(** [x < y]: false as soon as one side is NaN. *)
Definition nlt (x y : num) : bool :=
  match x, y with
  | Fin a, Fin b => if Rlt_dec a b then true else false
  | NInf, Fin _ | NInf, PInf | Fin _, PInf => true
  | _, _ => false
  end.

Definition nle (x y : num) : bool :=
  match x, y with
  | Fin a, Fin b => if Rle_dec a b then true else false
  | NaN, _ | _, NaN => false
  | NInf, _ | _, PInf => true
  | _, _ => false
  end.

(** [Math.abs], [Math.sqrt], [Math.sin], [Math.cos], [Math.asin],
    [Math.acos]; the inverse functions give NaN outside [-1, 1]. *)
Definition nabs (x : num) : num :=
  match x with
  | Fin a => Fin (Rabs a)
  | PInf | NInf => PInf
  | NaN => NaN
  end.

Definition nsqrt (x : num) : num :=
  match x with
  | Fin a => if Rlt_dec a 0 then NaN else Fin (sqrt a)
  | PInf => PInf
  | _ => NaN
  end.

Definition nsin (x : num) : num :=
  match x with Fin a => Fin (sin a) | _ => NaN end.

Definition ncos (x : num) : num :=
  match x with Fin a => Fin (cos a) | _ => NaN end.

Definition in_unit (a : R) : bool :=
  if Rle_dec (-1) a then (if Rle_dec a 1 then true else false) else false.

Definition nasin (x : num) : num :=
  match x with Fin a => if in_unit a then Fin (asin a) else NaN | _ => NaN end.

Definition nacos (x : num) : num :=
  match x with Fin a => if in_unit a then Fin (acos a) else NaN | _ => NaN end.

(** [Math.pow(x, 2)]. *)
Definition npow2 (x : num) : num := nmul x x.

(** The ceiling of a real, through [up] (the least integer above). *)
Definition Rceil (x : R) : R := - IZR (up (- x) - 1).

Definition nceil (x : num) : num :=
  match x with Fin a => Fin (Rceil a) | i => i end.

(** [Math.min] and [Math.max] of two numbers. *)
Definition nmin (x y : num) : num :=
  match x, y with
  | NaN, _ | _, NaN => NaN
  | _, _ => if nlt y x then y else x
  end.

Definition nmax (x y : num) : num :=
  match x, y with
  | NaN, _ | _, NaN => NaN
  | _, _ => if nlt x y then y else x
  end.

(** ** Cells of the bubble arrays *)

Inductive jsval : Type :=
| JNull
| JNum (n : num).

(** Arithmetic converts [null] to [0]. *)
Definition tonum (v : jsval) : num :=
  match v with JNull => Fin 0 | JNum n => n end.

Definition truthy (v : jsval) : bool :=
  match v with
  | JNull => false
  | JNum (Fin a) => if Req_EM_T a 0 then false else true
  | JNum NaN => false
  | JNum _ => true
  end.

(** [v || w] *)
Definition jor (v w : jsval) : jsval := if truthy v then v else w.

(** A bubble array [[x, y, radius, series index, point index]]. *)
Record bubble : Type := mkBubble {
  bub_x : jsval;
  bub_y : jsval;
  bub_r : jsval;
  bub_series : nat;
  bub_point : nat
}.

Definition bx (b : bubble) : num := tonum (bub_x b).
Definition by' (b : bubble) : num := tonum (bub_y b).
Definition br (b : bubble) : num := tonum (bub_r b).

(** ** checkOverlap *)

Definition checkOverlap (bubble1 bubble2 : bubble) : bool :=
  let diffX := nsub (bx bubble1) (bx bubble2) in
  let diffY := nsub (by' bubble1) (by' bubble2) in
  let sumRad := nadd (br bubble1) (br bubble2) in
  nlt (nsub (nsqrt (nadd (nmul diffX diffX) (nmul diffY diffY))) (nabs sumRad))
      (Fin (- 0.001)).

(** ** positionBubble *)

Definition positionBubble (lastBubble newOrigin nextBubble : bubble) : bubble :=
  let distance :=
    nsqrt (nadd (npow2 (nsub (bx lastBubble) (bx newOrigin)))
                (npow2 (nsub (by' lastBubble) (by' newOrigin)))) in
  let alfa :=
    nacos (ndiv (nsub (nadd (npow2 distance)
                            (npow2 (nadd (br nextBubble) (br newOrigin))))
                      (npow2 (nadd (br nextBubble) (br lastBubble))))
                (nmul (nmul (Fin 2) (nadd (br nextBubble) (br newOrigin)))
                      distance)) in
  let beta := nasin (ndiv (nabs (nsub (bx lastBubble) (bx newOrigin))) distance) in
  let gamma :=
    if nlt (nsub (by' lastBubble) (by' newOrigin)) (Fin 0) then Fin 0 else Fin PI in
  let delta :=
    if nlt (nmul (nsub (bx lastBubble) (bx newOrigin))
                 (nsub (by' lastBubble) (by' newOrigin))) (Fin 0)
    then Fin 1 else Fin (-1) in
  let finalAngle := nadd (nadd gamma alfa) (nmul beta delta) in
  let cosA := ncos finalAngle in
  let sinA := nsin finalAngle in
  let posX := nadd (bx newOrigin) (nmul (nadd (br newOrigin) (br nextBubble)) sinA) in
  let posY := nsub (by' newOrigin) (nmul (nadd (br newOrigin) (br nextBubble)) cosA) in
  mkBubble (JNum posX) (JNum posY) (bub_r nextBubble)
           (bub_series nextBubble) (bub_point nextBubble).

(** ** The chart and series state read and written by the layout *)

(** [parseInt(s, 10)]: leading white space, an optional sign, then decimal
    digits; [None] stands for NaN (no digit).  The option strings are
    ASCII, whose white space is tab, line feed, vertical tab, form feed,
    carriage return and space. *)
Definition js_space (c : ascii) : bool :=
  let n := nat_of_ascii c in orb (Nat.eqb n 32) (andb (Nat.leb 9 n) (Nat.leb n 13)).

Fixpoint digits_value (s : string) (acc : Z) (seen : bool) : option Z :=
  match s with
  | EmptyString => if seen then Some acc else None
  | String c rest =>
      let n := (Z.of_nat (nat_of_ascii c) - 48)%Z in
      if andb (0 <=? n)%Z (n <=? 9)%Z then digits_value rest (acc * 10 + n)%Z true
      else if seen then Some acc else None
  end.

Fixpoint parseInt10 (s : string) : option Z :=
  match s with
  | String c rest =>
      if js_space c then parseInt10 rest
      else if Ascii.eqb c "-"%char then option_map Z.opp (digits_value rest 0 false)
      else if Ascii.eqb c "+"%char then digits_value rest 0 false
      else digits_value s 0 false
  | EmptyString => digits_value s 0 false
  end.

(** [String(n)] for the integer [n] returned by [parseInt]. *)
Fixpoint nat_digits (fuel : nat) (n : N) (acc : string) : string :=
  match fuel with
  | O => acc
  | S fuel' =>
      let d := String (ascii_of_N (48 + N.modulo n 10)) acc in
      if (n <? 10)%N then d else nat_digits fuel' (N.div n 10) d
  end.

Definition Z_to_string (z : Z) : string :=
  let body := nat_digits (S (Z.to_nat (Z.log2 (Z.abs z)))) (Z.to_N (Z.abs z)) "" in
  if (z <? 0)%Z then String "-"%char body else body.

Definition parsed_to_string (p : option Z) : string :=
  match p with Some z => Z_to_string z | None => "NaN"%string end.

(** [/%$/.test(str)] *)
Fixpoint ends_with_percent (s : string) : bool :=
  match s with
  | EmptyString => false
  | String c EmptyString => Ascii.eqb c "%"%char
  | String _ rest => ends_with_percent rest
  end.

Definition parsed_num (p : option Z) : num :=
  match p with Some z => Fin (IZR z) | None => NaN end.

Record seriesOptions : Type := mkOptions {
  minPointSize : string;
  maxPointSize : string;
  sizeBy : string
}.

(** Undefined fields ([chart.diffX] before the first centring) are [None]. *)
Record store : Type := mkStore {
  plotLeft : num;
  plotTop : num;
  plotWidth : num;
  plotHeight : num;
  options : seriesOptions;
  stages : list (list bubble);
  rawPositions : list bubble;
  diffX : option num;
  diffY : option num;
  minRadius : option num;
  maxRadius : option num;
  allDataPoints : list bubble;
  radii : list jsval
}.

Definition set_layout (bp : list (list bubble)) (raw : list bubble) (s : store) : store :=
  mkStore (plotLeft s) (plotTop s) (plotWidth s) (plotHeight s) (options s)
          bp raw (diffX s) (diffY s) (minRadius s) (maxRadius s)
          (allDataPoints s) (radii s).

Definition set_rawPositions (raw : list bubble) (s : store) : store :=
  set_layout (stages s) raw s.

Definition set_diffs (dx dy : num) (s : store) : store :=
  mkStore (plotLeft s) (plotTop s) (plotWidth s) (plotHeight s) (options s)
          (stages s) (rawPositions s) (Some dx) (Some dy) (minRadius s) (maxRadius s)
          (allDataPoints s) (radii s).

Definition set_allDataPoints (pts : list bubble) (s : store) : store :=
  mkStore (plotLeft s) (plotTop s) (plotWidth s) (plotHeight s) (options s)
          (stages s) (rawPositions s) (diffX s) (diffY s) (minRadius s) (maxRadius s)
          pts (radii s).

Definition set_sizes (mn mx : num) (rs : list jsval) (s : store) : store :=
  mkStore (plotLeft s) (plotTop s) (plotWidth s) (plotHeight s) (options s)
          (stages s) (rawPositions s) (diffX s) (diffY s) (Some mn) (Some mx)
          (allDataPoints s) rs.

(** [placeBubbles] is called on [series.allDataPoints] by [translate] and on
    [chart.rawPositions] by [resizeRadius]; it sorts the array it is given in
    place, so the model names which of the two arrays it works on. *)
Inductive aref : Type := AllDataPoints | RawPositions.

Definition getArr (a : aref) (s : store) : list bubble :=
  match a with AllDataPoints => allDataPoints s | RawPositions => rawPositions s end.

Definition setArr (a : aref) (l : list bubble) (s : store) : store :=
  match a with
  | AllDataPoints => set_allDataPoints l s
  | RawPositions => set_rawPositions l s
  end.

(** ** getRadius *)

Definition set_radius (r : jsval) (p : bubble) : bubble :=
  mkBubble (bub_x p) (bub_y p) r (bub_series p) (bub_point p).

Definition resolveSize (smallestSize : num) (prop : string) : num :=
  let length := parseInt10 prop in
  let isPercent := ends_with_percent (parsed_to_string length) in
  if isPercent then ndiv (nmul smallestSize (parsed_num length)) (Fin 100)
  else parsed_num length.

(** [value === null || value === 0] *)
Definition null_or_zero (v : jsval) : bool :=
  match v with
  | JNull => true
  | JNum (Fin a) => if Req_EM_T a 0 then true else false
  | JNum _ => false
  end.

(** The body of the [each] callback of [getRadius]. *)
Definition radiusOf (sizeByArea : bool) (minSize maxSize radiusRange : num)
    (value : jsval) : jsval :=
  if null_or_zero value then JNull
  else
    let v := tonum value in
    if nlt v minSize then JNum (nsub minSize (Fin 1))
    else
      let pos := if nlt (Fin 0) radiusRange
                 then ndiv (nsub v minSize) radiusRange else Fin 0.5 in
      let pos := if andb sizeByArea (nle (Fin 0) pos) then nsqrt pos else pos in
      JNum (ndiv (nceil (nadd minSize (nmul pos (nsub maxSize minSize)))) (Fin 2)).

Definition getRadius (s : store) : store :=
  let smallestSize := nmin (plotWidth s) (plotHeight s) in
  let sizeByArea := negb (String.eqb (sizeBy (options s)) "width") in
  let minSize := resolveSize smallestSize (minPointSize (options s)) in
  let maxSize := resolveSize smallestSize (maxPointSize (options s)) in
  let radiusRange := nsub maxSize minSize in
  let rs := map (fun p => radiusOf sizeByArea minSize maxSize radiusRange (bub_r p))
                (allDataPoints s) in
  set_sizes minSize maxSize rs
    (set_allDataPoints (map (fun p => set_radius (radiusOf sizeByArea minSize maxSize
                                                   radiusRange (bub_r p)) p)
                            (allDataPoints s)) s).

(** ** placeBubbles *)

(** The comparator [function (a, b) { return b[2] - a[2]; }]. *)
Definition sortCompare (a b : bubble) : num := nsub (br b) (br a).

(** [Array.prototype.sort] as a stable insertion sort: [x] goes before the
    first [y] that the comparator puts after it.  For a consistent comparator
    this is the order the engine's stable sort produces; a NaN comparison
    counts as equality. *)
Fixpoint insertSorted (x : bubble) (l : list bubble) : list bubble :=
  match l with
  | [] => [x]
  | y :: ys => if nlt (Fin 0) (sortCompare y x) then x :: y :: ys
               else y :: insertSorted x ys
  end.

Definition sortDesc (l : list bubble) : list bubble :=
  fold_left (fun acc x => insertSorted x acc) l [].

(** [bubblePos[s][i]]; [None] when it is [undefined]. *)
Definition at2 (bp : list (list bubble)) (s i : nat) : option bubble :=
  match nth_error bp s with Some ring => nth_error ring i | None => None end.

(** [bubblePos[s].push(x)]; [None] is the TypeError of a missing level. *)
Fixpoint push_at (bp : list (list bubble)) (s : nat) (x : bubble)
    : option (list (list bubble)) :=
  match bp, s with
  | [], _ => None
  | ring :: rest, O => Some ((ring ++ [x]) :: rest)
  | ring :: rest, S s' => option_map (cons ring) (push_at rest s' x)
  end.

(** The loop variables [bubblePos], [stage], [j], [k]. *)
Record packState : Type := mkPack {
  bubblePos : list (list bubble);
  stage : nat;
  pj : nat;
  pk : nat
}.

Definition obind {A B} (o : option A) (f : A -> option B) : option B :=
  match o with Some a => f a | None => None end.

Notation "x <- o ;; f" := (obind o (fun x => f))
  (at level 61, o at next level, right associativity).

(** One iteration of the [for] loop, for the item [sortedArr[i]] whose
    radius has already been through [|| 1]. *)
Definition placeStep (ps : packState) (item : bubble) : option packState :=
  let bp := bubblePos ps in
  let st := stage ps in
  lastB <- at2 bp st (pj ps) ;;
  pivot <- at2 bp (st - 1) (pk ps) ;;
  let calculatedBubble := positionBubble lastB pivot item in
  first <- at2 bp st 0 ;;
  if checkOverlap calculatedBubble first then
    bp' <- push_at (bp ++ [[]]) (S st) (positionBubble lastB first item) ;;
    Some (mkPack bp' (S st) 0 0)
  else
    let nextPivot := if Nat.ltb 1 st then at2 bp (st - 1) (S (pk ps)) else None in
    match nextPivot with
    | Some np =>
        if checkOverlap calculatedBubble np then
          bp' <- push_at bp st (positionBubble lastB np item) ;;
          Some (mkPack bp' st (S (pj ps)) (S (pk ps)))
        else
          bp' <- push_at bp st calculatedBubble ;;
          Some (mkPack bp' st (S (pj ps)) (pk ps))
    | None =>
        bp' <- push_at bp st calculatedBubble ;;
        Some (mkPack bp' st (S (pj ps)) (pk ps))
    end.

(** [sortedArr[i][2] = sortedArr[i][2] || 1] *)
Definition coerceRadius (p : bubble) : bubble := set_radius (jor (bub_r p) (JNum (Fin 1))) p.

(** The loop over [i = 2 .. length - 1]; it also returns the items as the
    loop leaves them in [sortedArr]. *)
Fixpoint placeLoop (ps : packState) (items : list bubble)
    : option (packState * list bubble) :=
  match items with
  | [] => Some (ps, [])
  | it :: rest =>
      let it' := coerceRadius it in
      ps' <- placeStep ps it' ;;
      res <- placeLoop ps' rest ;;
      Some (fst res, it' :: snd res)
  end.

(** The two seeds: the largest bubble at [(0, 0)] and the second one above it. *)
Definition seed0 (b0 : bubble) : bubble :=
  mkBubble (JNum (Fin 0)) (JNum (Fin 0)) (bub_r b0) (bub_series b0) (bub_point b0).

Definition seed1 (b0 b1 : bubble) : bubble :=
  mkBubble (JNum (Fin 0)) (JNum (nsub (nsub (Fin 0) (br b1)) (br b0)))
           (bub_r b1) (bub_series b1) (bub_point b1).

Definition initPack (b0 b1 : bubble) : packState :=
  mkPack [[seed0 b0]; [seed1 b0 b1]] 1 0 0.

(** ** resizeRadius *)

Definition bboxStep (acc : num * num * num * num) (p : bubble) : num * num * num * num :=
  let '(minX, maxX, minY, maxY) := acc in
  let radius := br p in
  (nmin minX (nsub (bx p) radius), nmax maxX (nadd (bx p) radius),
   nmin minY (nsub (by' p) radius), nmax maxY (nadd (by' p) radius)).

Definition bboxOf (positions : list bubble) : num * num * num * num :=
  fold_left bboxStep positions (PInf, NInf, PInf, NInf).

(** [positions[i][2] *= smallerDimension] *)
Definition scaleRadius (f : num) (p : bubble) : bubble :=
  set_radius (JNum (nmul (br p) f)) p.

(** [place] is the recursive call [this.placeBubbles(positions)] on
    [chart.rawPositions]. *)
Definition resizeRadius (place : store -> option store) (s : store) : option store :=
  let '(minX, maxX, minY, maxY) := bboxOf (rawPositions s) in
  let smallerDimension :=
    nmin (ndiv (nsub (plotWidth s) (plotLeft s)) (nsub maxX minX))
         (ndiv (nsub (plotHeight s) (plotTop s)) (nsub maxY minY)) in
  if nlt (Fin 1e-10) (nabs (nsub smallerDimension (Fin 1))) then
    place (set_rawPositions (map (scaleRadius smallerDimension) (rawPositions s)) s)
  else
    Some (set_diffs
      (nsub (nsub (nadd (ndiv (plotWidth s) (Fin 2)) (plotLeft s)) minX)
            (ndiv (nsub maxX minX) (Fin 2)))
      (nsub (nsub (nadd (ndiv (plotHeight s) (Fin 2)) (plotTop s)) minY)
            (ndiv (nsub maxY minY) (Fin 2)))
      s).

(** ** placeBubbles *)

(** An element of the array [placeBubbles] returns. *)
Inductive cell : Type :=
| CVal (v : jsval)
| CBubble (b : bubble).

(** [placeBubbles] and [resizeRadius] call each other until the scale
    factor settles; [fuel] bounds the depth of that recursion ([None] when it
    runs out, as it does when the recursion does not end). *)
Fixpoint placeBubbles (fuel : nat) (a : aref) (s : store) : option (store * list cell) :=
  match fuel with
  | O => None
  | S fuel' =>
      let sortedArr := sortDesc (getArr a s) in
      let s1 := setArr a sortedArr s in
      match sortedArr with
      | [] => Some (s1, [])
      | [b0] =>
          Some (s1, [CVal (JNum (Fin 0)); CVal (JNum (Fin 0));
                     CVal (bub_x b0); CVal (bub_y b0); CVal (bub_r b0)])
      | b0 :: b1 :: rest =>
          res <- placeLoop (initPack b0 b1) rest ;;
          let bp := bubblePos (fst res) in
          let s2 := set_layout bp (List.concat bp) (setArr a (b0 :: b1 :: snd res) s1) in
          s3 <- resizeRadius (fun s' => option_map fst (placeBubbles fuel' RawPositions s')) s2 ;;
          Some (s3, map CBubble (rawPositions s3))
      end
  end.

(** The part of [translate] that lays the bubbles out:
    [series.getRadius(); positions = this.placeBubbles(this.allDataPoints)]. *)
Definition layout (fuel : nat) (s : store) : option (store * list cell) :=
  placeBubbles fuel AllDataPoints (getRadius s).

(** ** Mirrors over the reals and example charts *)

(** The argument of [acos] in [positionBubble] (law of cosines), for
    finite bubbles. *)
Definition cosRatio (lx ly lr ox oy or nr : R) : R :=
  let distance := sqrt ((lx - ox) * (lx - ox) + (ly - oy) * (ly - oy)) in
  (distance * distance + (nr + or) * (nr + or) - (nr + lr) * (nr + lr))
  / (2 * (nr + or) * distance).

Definition finite_bubble (x y r : R) (s p : nat) : bubble :=
  mkBubble (JNum (Fin x)) (JNum (Fin y)) (JNum (Fin r)) s p.

Definition realOf (n : num) : R := match n with Fin a => a | _ => 0 end.

(** Centre and radius of a bubble are numbers (a [null] radius counts as 0). *)
Definition finiteB (p : bubble) : Prop :=
  bx p = Fin (realOf (bx p)) /\ by' p = Fin (realOf (by' p)) /\
  br p = Fin (realOf (br p)).

Definition bboxStepR (acc : R * R * R * R) (p : bubble) : R * R * R * R :=
  let '(minX, maxX, minY, maxY) := acc in
  let x := realOf (bx p) in let y := realOf (by' p) in let r := realOf (br p) in
  (Rmin minX (x - r), Rmax maxX (x + r), Rmin minY (y - r), Rmax maxY (y + r)).

(** The bounding box of a non-empty list of bubbles, over the reals. *)
Definition bboxR (l : list bubble) : R * R * R * R :=
  match l with
  | [] => (0, 0, 0, 0)
  | p :: ps =>
      let x := realOf (bx p) in let y := realOf (by' p) in let r := realOf (br p) in
      fold_left bboxStepR ps (x - r, x + r, y - r, y + r)
  end.

(** A chart with a 100 x 6 plot area at the origin and the default options. *)
Definition example_store (pts : list bubble) : store :=
  mkStore (Fin 0) (Fin 0) (Fin 100) (Fin 6)
          (mkOptions "10%" "100%" "area") [] [] None None None None pts [].

Definition single_point : bubble := mkBubble JNull JNull (JNum (Fin 5)) 0 0.

(** [radiusOf] on a finite, non-zero value, over the reals. *)
Definition radiusR (sizeByArea : bool) (minSize maxSize value : R) : R :=
  if Rlt_dec value minSize then minSize - 1
  else
    let pos := if Rlt_dec 0 (maxSize - minSize)
               then (value - minSize) / (maxSize - minSize) else 0.5 in
    let pos := if andb sizeByArea (if Rle_dec 0 pos then true else false)
               then sqrt pos else pos in
    Rceil (minSize + pos * (maxSize - minSize)) / 2.

Definition value_point (v : R) : bubble := mkBubble JNull JNull (JNum (Fin v)) 0 0.

(** ** A population whose ring never closes *)

(** One value 5 and eight zeros, with [minPointSize = maxPointSize = "2"]:
    [getRadius] gives the first point the radius 1 and the zeros [null]. *)
Definition zero_point (i : nat) : bubble := mkBubble JNull JNull (JNum (Fin 0)) 0 i.

Definition ring_values_store : store :=
  mkStore (Fin 0) (Fin 0) (Fin 100) (Fin 6) (mkOptions "2" "2" "area") [] [] None None
          None None (mkBubble JNull JNull (JNum (Fin 5)) 0 0 :: map zero_point [1;2;3;4;5;6;7;8]%nat)
          [].

(** The array [getRadius] leaves in [allDataPoints]. *)
Definition null_point (i : nat) : bubble := mkBubble JNull JNull JNull 0 i.

Definition ring_data : list bubble :=
  mkBubble JNull JNull (JNum (Fin 1)) 0 0 :: map null_point [1;2;3;4;5;6;7;8]%nat.

(** The same values in another order, [0, 5, 0, ..., 0]: [getRadius] leaves
    the unit bubble second, and the sort of [placeBubbles] moves it first. *)
Definition shuffled_values_store : store :=
  mkStore (Fin 0) (Fin 0) (Fin 100) (Fin 6) (mkOptions "2" "2" "area") [] [] None None
          None None (zero_point 1 :: mkBubble JNull JNull (JNum (Fin 5)) 0 0 ::
                     map zero_point [2;3;4;5;6;7;8]%nat)
          [].

Definition shuffled_data : list bubble :=
  null_point 1 :: mkBubble JNull JNull (JNum (Fin 1)) 0 0 :: map null_point [2;3;4;5;6;7;8]%nat.

(** A placed bubble of radius 1. *)
Definition placed (x y : R) (i : nat) : bubble :=
  mkBubble (JNum (Fin x)) (JNum (Fin y)) (JNum (Fin 1)) 0 i.

(** The positions the packing of [ring_data] ends with: the unit bubble,
    the [null]-radius second seed below it, and seven unit bubbles going
    round it, the last on top of the first. *)
Definition ring_positions : list bubble :=
  [placed 0 0 0; seed1 (mkBubble JNull JNull (JNum (Fin 1)) 0 0) (null_point 1);
   placed 0 (-2) 2; placed (sqrt 3) (-1) 3; placed (sqrt 3) 1 4; placed 0 2 5;
   placed (- sqrt 3) 1 6; placed (- sqrt 3) (-1) 7; placed 0 (-2) 8].

(** Six unit bubbles round a unit bubble, the state of the loop before the
    seventh: [stage = 1], [j = 5], [k = 0]. *)
Definition unit_ring_levels : list (list bubble) :=
  [[placed 0 0 0];
   [placed 0 (-2) 2; placed (sqrt 3) (-1) 3; placed (sqrt 3) 1 4; placed 0 2 5;
    placed (- sqrt 3) 1 6; placed (- sqrt 3) (-1) 7]].

(** Three levels, for [stage = 2], [j = 1], [k = 0]: the pivot
    [bubblePos[1][0]] is the unit bubble at the origin, [np] is
    [bubblePos[1][1]], [first] is [bubblePos[2][0]], and the last bubble
    [bubblePos[2][1]] is the unit bubble at [(-sqrt 3, -1)]. *)
Definition stage2_levels (first np : bubble) : list (list bubble) :=
  [[placed 0 0 10]; [placed 0 0 0; np]; [first; placed (- sqrt 3) (-1) 7]].

(** [finalAngle] of [positionBubble] for finite bubbles whose [acos] and
    [asin] arguments lie in [-1, 1]. *)
Definition finalAngleR (lx ly lr ox oy or nr : R) : R :=
  let distance := sqrt ((lx - ox) * (lx - ox) + (ly - oy) * (ly - oy)) in
  let alfa := acos (cosRatio lx ly lr ox oy or nr) in
  let beta := asin (Rabs (lx - ox) / distance) in
  let gamma := if Rlt_dec (ly - oy) 0 then 0 else PI in
  let delta := if Rlt_dec ((lx - ox) * (ly - oy)) 0 then 1 else -1 in
  gamma + alfa + beta * delta.

(** ** accumulateAllPoints and translate *)

(** The fields of a series that [accumulateAllPoints] reads. *)
Record series : Type := mkSeries {
  visible : bool;
  processedYData : list jsval;
  sindex : nat
}.

(** The inner loop: [allDataPoints.push([null, null, y, series.index, j])]
    for [j] from [j0] on. *)
Fixpoint pushYData (ys : list jsval) (idx j : nat) : list bubble :=
  match ys with
  | [] => []
  | y :: rest => mkBubble JNull JNull y idx j :: pushYData rest idx (S j)
  end.

(** The outer loop over [chart.series], skipping the hidden ones. *)
Fixpoint accumulateAllPoints (chartSeries : list series) : list bubble :=
  match chartSeries with
  | [] => []
  | s :: rest =>
      app (if visible s then pushYData (processedYData s) (sindex s) 0 else [])
          (accumulateAllPoints rest)
  end.

(** The options of the series type. *)
Definition packedbubble_defaults : seriesOptions := mkOptions "10%" "100%" "radius".

(** The fields of a point that the loop of [translate] writes: [plotX],
    [plotY], the radius, width and height of [marker] and [dlBox] as
    [(x, y, width, height)]. *)
Record point : Type := mkPoint {
  plotX : num;
  plotY : num;
  marker : option (jsval * num * num);
  dlBox : option (num * num * num * num)
}.

(** An undefined [chart.diffX] reads as [undefined], which turns a sum into
    NaN. *)
Definition undef_num (o : option num) : num := match o with Some n => n | None => NaN end.

(** [data[j] = pt]. *)
Fixpoint set_nth {A} (l : list A) (j : nat) (x : A) : list A :=
  match l, j with
  | [], _ => []
  | _ :: rest, O => x :: rest
  | y :: rest, S j' => y :: set_nth rest j' x
  end.

(** The body of the loop for a position of this series. *)
Definition placePoint (L T : num) (dX dY : option num) (pos : bubble) (pt : point) : point :=
  let radius := bub_r pos in
  let px := nadd (nsub (bx pos) L) (undef_num dX) in
  let py := nadd (nsub (by' pos) T) (undef_num dY) in
  let r := tonum radius in
  mkPoint px py (Some (radius, nmul (Fin 2) r, nmul (Fin 2) r))
          (Some (nsub px r, nsub py r, nmul (Fin 2) r, nmul (Fin 2) r)).

(** The loop of [translate] over [positions]: [positions[i][3]] is
    [undefined] on a number and a TypeError on [null]; writing to
    [data[positions[i][4]]] is a TypeError when there is no such point. *)
Fixpoint positionPoints (index : nat) (L T : num) (dX dY : option num)
    (positions : list cell) (data : list point) : option (list point) :=
  match positions with
  | [] => Some data
  | CVal JNull :: _ => None
  | CVal (JNum _) :: rest => positionPoints index L T dX dY rest data
  | CBubble b :: rest =>
      if Nat.eqb (bub_series b) index then
        match nth_error data (bub_point b) with
        | None => None
        | Some pt =>
            positionPoints index L T dX dY rest
              (set_nth data (bub_point b) (placePoint L T dX dY b pt))
        end
      else positionPoints index L T dX dY rest data
  end.

Inductive outcome : Type :=
| Translated (s : store) (data : list point)
| TypeError
| OutOfFuel.

Section Translate.

(** [H.seriesTypes.scatter.prototype.translate], defined in another file:
    any function of the points. *)
Variable scatterTranslate : list point -> list point.

Definition translate (fuel : nat) (chartSeries : list series) (index : nat) (s : store)
    (data : list point) : outcome :=
  let s1 := set_allDataPoints (accumulateAllPoints chartSeries) s in
  let s2 := getRadius s1 in
  match placeBubbles fuel AllDataPoints s2 with
  | None => OutOfFuel
  | Some (s3, positions) =>
      match positionPoints index (plotLeft s3) (plotTop s3) (diffX s3) (diffY s3)
              positions (scatterTranslate data) with
      | Some data' => Translated s3 data'
      | None => TypeError
      end
  end.

End Translate.

(** Two points of radius 1 in a 2 x 4 plot area at the origin, with the
    default options of the series type. *)
Definition unit_point (i : nat) : bubble := mkBubble JNull JNull (JNum (Fin 1)) 0 i.

Definition two_points_store : store :=
  mkStore (Fin 0) (Fin 0) (Fin 2) (Fin 4) packedbubble_defaults
          [] [] None None None None [unit_point 0; unit_point 1] [].

(** Their layout: the first at the origin, the second above it. *)
Definition two_points_layout : list bubble :=
  [seed0 (unit_point 0); seed1 (unit_point 0) (unit_point 1)].

(** The store after [placeBubbles] has laid out the two unit points of [s]
    in a 2 x 4 plot area: the scale factor is 1 and the layout is centred. *)
Definition pair_final (s : store) : store :=
  set_diffs (Fin 1) (Fin 3)
    (set_layout [[seed0 (unit_point 0)]; [seed1 (unit_point 0) (unit_point 1)]]
                two_points_layout (set_allDataPoints [unit_point 0; unit_point 1] s)).

(** A visible series 0 with the values 5 and 5; with both sizes 2 its points
    get the radius 1. *)
Definition two_values_series : series := mkSeries true [JNum (Fin 5); JNum (Fin 5)] 0.

Definition translate_store : store :=
  mkStore (Fin 0) (Fin 0) (Fin 2) (Fin 4) (mkOptions "2" "2" "area")
          [] [] None None None None [] [].

Definition blank_point : point := mkPoint NaN NaN None None.

(** [b] may follow [a] in a list sorted by non-increasing radius. *)
Definition radius_desc (a b : bubble) : Prop := realOf (br b) <= realOf (br a).

(** ** Loop invariant and the quantities of resizeRadius *)

(** The identity of a bubble: [[series index, point index]]. *)
Definition ids (p : bubble) : nat * nat := (bub_series p, bub_point p).

(** What the loop of [placeBubbles] keeps: [bubblePos] has the levels
    [0 .. stage], [stage >= 1], and [j] and [k] index existing bubbles of
    the current and of the previous level. *)
Definition loopInv (ps : packState) : Prop :=
  exists pre last,
    bubblePos ps = app pre [last] /\ List.length pre = stage ps /\ (1 <= stage ps)%nat /\
    (pj ps < List.length last)%nat /\
    (pk ps < List.length (nth (stage ps - 1) pre []))%nat.

(** [smallerDimension] of [resizeRadius], for the bounding box [bb]. *)
Definition smallerDimension (s : store) (bb : num * num * num * num) : num :=
  let '(minX, maxX, minY, maxY) := bb in
  nmin (ndiv (nsub (plotWidth s) (plotLeft s)) (nsub maxX minX))
       (ndiv (nsub (plotHeight s) (plotTop s)) (nsub maxY minY)).

(** [chart.diffX] and [chart.diffY] as [resizeRadius] sets them. *)
Definition centreX (s : store) (bb : num * num * num * num) : num :=
  let '(minX, maxX, minY, maxY) := bb in
  nsub (nsub (nadd (ndiv (plotWidth s) (Fin 2)) (plotLeft s)) minX)
       (ndiv (nsub maxX minX) (Fin 2)).

Definition centreY (s : store) (bb : num * num * num * num) : num :=
  let '(minX, maxX, minY, maxY) := bb in
  nsub (nsub (nadd (ndiv (plotHeight s) (Fin 2)) (plotTop s)) minY)
       (ndiv (nsub maxY minY) (Fin 2)).

(** * Proofs *)

(** ** Arithmetic on finite numbers *)

Lemma nlt_Fin (a b : R) : nlt (Fin a) (Fin b) = true <-> a < b.
Proof. simpl; destruct (Rlt_dec a b); split; intros; congruence || lra. Qed.

Lemma nlt_Fin_true (a b : R) : a < b -> nlt (Fin a) (Fin b) = true.
Proof. apply nlt_Fin. Qed.

Lemma nlt_Fin_false (a b : R) : b <= a -> nlt (Fin a) (Fin b) = false.
Proof. intros H; simpl; destruct (Rlt_dec a b); [lra | reflexivity]. Qed.

Lemma nsqrt_Fin (a : R) : 0 <= a -> nsqrt (Fin a) = Fin (sqrt a).
Proof. intros H; simpl; destruct (Rlt_dec a 0); [lra | reflexivity]. Qed.

Lemma ndiv_Fin (a b : R) : b <> 0 -> ndiv (Fin a) (Fin b) = Fin (a / b).
Proof. intros H; simpl; destruct (Req_EM_T b 0); [contradiction | reflexivity]. Qed.

Lemma in_unit_true (a : R) : -1 <= a <= 1 -> in_unit a = true.
Proof.
  intros H; unfold in_unit; destruct (Rle_dec (-1) a); destruct (Rle_dec a 1);
    reflexivity || lra.
Qed.

Lemma in_unit_false (a : R) : ~ (-1 <= a <= 1) -> in_unit a = false.
Proof.
  intros H; unfold in_unit; destruct (Rle_dec (-1) a); destruct (Rle_dec a 1);
    reflexivity || (exfalso; apply H; lra).
Qed.

Lemma nacos_Fin (a : R) : -1 <= a <= 1 -> nacos (Fin a) = Fin (acos a).
Proof. intros H; simpl; rewrite in_unit_true; auto. Qed.

Lemma nacos_out (a : R) : ~ (-1 <= a <= 1) -> nacos (Fin a) = NaN.
Proof. intros H; simpl; rewrite in_unit_false; auto. Qed.

Lemma nasin_Fin (a : R) : -1 <= a <= 1 -> nasin (Fin a) = Fin (asin a).
Proof. intros H; simpl; rewrite in_unit_true; auto. Qed.

Lemma nadd_NaN_r (x : num) : nadd x NaN = NaN.
Proof. destruct x; reflexivity. Qed.

Lemma nmul_NaN_r (x : num) : nmul x NaN = NaN.
Proof. destruct x; reflexivity. Qed.

Lemma sum_sq_nonneg (a b : R) : 0 <= a * a + b * b.
Proof. nra. Qed.

Lemma abs_le_norm (a b : R) : Rabs a <= sqrt (a * a + b * b).
Proof.
  rewrite <- sqrt_Rsqr_abs; apply sqrt_le_1_alt; unfold Rsqr; nra.
Qed.

Lemma if_Fin_ex (c : bool) (a b : R) : exists r, (if c then Fin a else Fin b) = Fin r.
Proof. destruct c; eauto. Qed.

(** ** checkOverlap *)

(** C7: for finite centres and non-negative radii, [checkOverlap] holds
    exactly when the centre distance minus the radius sum is below
    [-0.001]; two tangent circles do not overlap. *)
Theorem checkOverlap_iff (x1 y1 r1 x2 y2 r2 : R) (s1 p1 s2 p2 : nat)
    (Hr1 : 0 <= r1) (Hr2 : 0 <= r2) :
  let c1 := mkBubble (JNum (Fin x1)) (JNum (Fin y1)) (JNum (Fin r1)) s1 p1 in
  let c2 := mkBubble (JNum (Fin x2)) (JNum (Fin y2)) (JNum (Fin r2)) s2 p2 in
  (checkOverlap c1 c2 = true <->
     sqrt ((x1 - x2) ^ 2 + (y1 - y2) ^ 2) - (r1 + r2) < - 0.001) /\
  (sqrt ((x1 - x2) ^ 2 + (y1 - y2) ^ 2) = r1 + r2 -> checkOverlap c1 c2 = false).
Proof.
  intros c1 c2.
  assert (E : checkOverlap c1 c2 =
              nlt (Fin (sqrt ((x1 - x2) ^ 2 + (y1 - y2) ^ 2) - (r1 + r2))) (Fin (- 0.001))).
  { unfold checkOverlap, c1, c2, bx, by', br.
    cbn [bub_x bub_y bub_r tonum nadd nsub nneg nmul].
    rewrite nsqrt_Fin by apply sum_sq_nonneg. cbn [nabs nadd nneg].
    rewrite Rabs_pos_eq by lra.
    replace ((x1 + - x2) * (x1 + - x2) + (y1 + - y2) * (y1 + - y2))
      with ((x1 - x2) ^ 2 + (y1 - y2) ^ 2) by ring.
    reflexivity. }
  rewrite E. split.
  - apply nlt_Fin.
  - intros Ht. apply nlt_Fin_false. lra.
Qed.

(** ** positionBubble *)

Lemma nadd_FF (a b : R) : nadd (Fin a) (Fin b) = Fin (a + b).
Proof. reflexivity. Qed.
Lemma nsub_FF (a b : R) : nsub (Fin a) (Fin b) = Fin (a - b).
Proof. reflexivity. Qed.
Lemma nmul_FF (a b : R) : nmul (Fin a) (Fin b) = Fin (a * b).
Proof. reflexivity. Qed.
Lemma npow2_F (a : R) : npow2 (Fin a) = Fin (a * a).
Proof. reflexivity. Qed.
Lemma nabs_F (a : R) : nabs (Fin a) = Fin (Rabs a).
Proof. reflexivity. Qed.
Lemma nsin_F (a : R) : nsin (Fin a) = Fin (sin a).
Proof. reflexivity. Qed.
Lemma ncos_F (a : R) : ncos (Fin a) = Fin (cos a).
Proof. reflexivity. Qed.

Ltac fin_simp :=
  repeat (rewrite ?nadd_FF, ?nsub_FF, ?nmul_FF, ?npow2_F, ?nabs_F, ?nsin_F, ?ncos_F).

Lemma positionBubble_Fin (lx ly lr ox oy or nr : R) (nx ny : jsval)
    (ls lp os op ns np : nat)
    (Hd : 0 < (lx - ox) * (lx - ox) + (ly - oy) * (ly - oy)) (Hs : nr + or <> 0) :
  exists g b,
    let finalAngle := nadd (nadd (Fin g) (nacos (Fin (cosRatio lx ly lr ox oy or nr))))
                           (Fin b) in
    positionBubble (mkBubble (JNum (Fin lx)) (JNum (Fin ly)) (JNum (Fin lr)) ls lp)
                   (mkBubble (JNum (Fin ox)) (JNum (Fin oy)) (JNum (Fin or)) os op)
                   (mkBubble nx ny (JNum (Fin nr)) ns np)
    = mkBubble (JNum (nadd (Fin ox) (nmul (Fin (or + nr)) (nsin finalAngle))))
               (JNum (nsub (Fin oy) (nmul (Fin (or + nr)) (ncos finalAngle))))
               (JNum (Fin nr)) ns np.
Proof.
  unfold positionBubble; cbn [bx by' br bub_x bub_y bub_r bub_series bub_point tonum].
  fin_simp.
  rewrite nsqrt_Fin by apply sum_sq_nonneg.
  fin_simp.
  set (d := sqrt ((lx - ox) * (lx - ox) + (ly - oy) * (ly - oy))).
  assert (Hdpos : 0 < d) by (apply sqrt_lt_R0; exact Hd).
  rewrite (ndiv_Fin _ (2 * (nr + or) * d)).
  2:{ apply Rmult_integral_contrapositive_currified; [|lra].
      apply Rmult_integral_contrapositive_currified; lra. }
  rewrite (ndiv_Fin (Rabs (lx - ox)) d) by lra.
  rewrite nasin_Fin.
  2:{ split.
      - apply Rle_trans with 0; [lra|]. unfold Rdiv; apply Rmult_le_pos; [apply Rabs_pos | left; apply Rinv_0_lt_compat; lra].
      - apply Rmult_le_reg_r with d; [lra|]. unfold Rdiv; rewrite Rmult_assoc, Rinv_l by lra.
        rewrite Rmult_1_r, Rmult_1_l. apply abs_le_norm. }
  destruct (if_Fin_ex (nlt (Fin (ly - oy)) (Fin 0)) 0 PI) as [g Hg]; rewrite Hg.
  destruct (if_Fin_ex (nlt (Fin ((lx - ox) * (ly - oy))) (Fin 0)) 1 (-1)) as [dl Hdl];
    rewrite Hdl.
  fin_simp.
  exists g, (asin (Rabs (lx - ox) / d) * dl).
  reflexivity.
Qed.

(** C2 (as amended): for finite bubbles with [lastBubble] and [newOrigin] at
    distinct centres and [newOrigin.radius + nextBubble.radius > 0], if the
    law-of-cosines ratio lies in [-1, 1] the new centre is finite and at
    distance exactly [newOrigin.radius + nextBubble.radius] from the centre
    of [newOrigin]; otherwise [Math.acos] gives NaN and so do both
    coordinates. *)
Theorem positionBubble_tangent (lx ly lr ox oy or nr : R) (nx ny : jsval)
    (ls lp os op ns np : nat)
    (Hd : 0 < (lx - ox) * (lx - ox) + (ly - oy) * (ly - oy)) (Hs : 0 < or + nr) :
  let P := positionBubble (finite_bubble lx ly lr ls lp) (finite_bubble ox oy or os op)
                          (mkBubble nx ny (JNum (Fin nr)) ns np) in
  (-1 <= cosRatio lx ly lr ox oy or nr <= 1 ->
     exists px py, bub_x P = JNum (Fin px) /\ bub_y P = JNum (Fin py) /\
       sqrt ((px - ox) * (px - ox) + (py - oy) * (py - oy)) = or + nr) /\
  (~ (-1 <= cosRatio lx ly lr ox oy or nr <= 1) ->
     bub_x P = JNum NaN /\ bub_y P = JNum NaN).
Proof.
  intros P.
  destruct (positionBubble_Fin lx ly lr ox oy or nr nx ny ls lp os op ns np Hd)
    as [g [b E]]; [lra|].
  cbv zeta in E. unfold P, finite_bubble; rewrite E; clear P E.
  split; intros Hr.
  - rewrite nacos_Fin by exact Hr. fin_simp.
    set (t := g + acos (cosRatio lx ly lr ox oy or nr) + b).
    do 2 eexists; split; [reflexivity | split; [reflexivity |]].
    assert (H1 : sin t * sin t + cos t * cos t = 1)
      by (pose proof (sin2_cos2 t) as H; unfold Rsqr in H; lra).
    replace ((ox + (or + nr) * sin t - ox) * (ox + (or + nr) * sin t - ox) +
             (oy - (or + nr) * cos t - oy) * (oy - (or + nr) * cos t - oy))
      with ((or + nr) * (or + nr) * (sin t * sin t + cos t * cos t)) by ring.
    rewrite H1, Rmult_1_r. apply sqrt_square; lra.
  - rewrite nacos_out by exact Hr. split; reflexivity.
Qed.

(** ** resizeRadius *)

Lemma nmin_FF (a b : R) : nmin (Fin a) (Fin b) = Fin (Rmin a b).
Proof.
  unfold nmin, Rmin; simpl. destruct (Rlt_dec b a); destruct (Rle_dec a b);
    f_equal; lra.
Qed.

Lemma nmax_FF (a b : R) : nmax (Fin a) (Fin b) = Fin (Rmax a b).
Proof.
  unfold nmax, Rmax; simpl. destruct (Rlt_dec a b); destruct (Rle_dec a b);
    f_equal; lra.
Qed.

Lemma bboxStep_fin (a b c d : R) (p : bubble) :
  finiteB p ->
  bboxStep (Fin a, Fin b, Fin c, Fin d) p =
  (let '(a', b', c', d') := bboxStepR (a, b, c, d) p in (Fin a', Fin b', Fin c', Fin d')).
Proof.
  intros [Hx [Hy Hr]]. unfold bboxStep, bboxStepR.
  rewrite Hx, Hy, Hr. fin_simp. rewrite !nmin_FF, !nmax_FF. reflexivity.
Qed.

Lemma fold_bbox_fin (l : list bubble) (a b c d : R) :
  Forall finiteB l ->
  fold_left bboxStep l (Fin a, Fin b, Fin c, Fin d) =
  (let '(a', b', c', d') := fold_left bboxStepR l (a, b, c, d)
   in (Fin a', Fin b', Fin c', Fin d')).
Proof.
  revert a b c d. induction l as [|p ps IH]; intros a b c d Hf; [reflexivity|].
  inversion Hf as [|? ? Hp Hps]; subst. cbn [fold_left].
  rewrite bboxStep_fin by exact Hp.
  destruct (bboxStepR (a, b, c, d) p) as [[[a' b'] c'] d'].
  apply IH; exact Hps.
Qed.

Lemma bboxStep_first (p : bubble) :
  finiteB p ->
  bboxStep (PInf, NInf, PInf, NInf) p =
  (let x := realOf (bx p) in let y := realOf (by' p) in let r := realOf (br p) in
   (Fin (x - r), Fin (x + r), Fin (y - r), Fin (y + r))).
Proof.
  intros [Hx [Hy Hr]]. unfold bboxStep. rewrite Hx, Hy, Hr. fin_simp. reflexivity.
Qed.

Lemma bboxOf_fin (l : list bubble) :
  l <> [] -> Forall finiteB l ->
  bboxOf l = (let '(a, b, c, d) := bboxR l in (Fin a, Fin b, Fin c, Fin d)).
Proof.
  intros Hne Hf. destruct l as [|p ps]; [contradiction|].
  inversion Hf as [|? ? Hp Hps]; subst.
  unfold bboxOf; cbn [fold_left]. rewrite bboxStep_first by exact Hp.
  apply fold_bbox_fin; exact Hps.
Qed.

(** C3: after a packing pass, with finite bubbles and a non-degenerate
    bounding box, [resizeRadius] computes the scale factor
    [min(usableWidth / bboxWidth, usableHeight / bboxHeight)] (the usable
    sizes being [plotWidth - plotLeft] and [plotHeight - plotTop]); when it
    differs from 1 by more than [1e-10] it multiplies the radius of every
    bubble, and nothing else, by that factor and re-runs [placeBubbles] on
    the rescaled array; otherwise it only sets [diffX] and [diffY], which move
    the centre of the bounding box onto the centre of the plot area. *)
Theorem resizeRadius_repack_or_centre (fuel : nat) (s : store)
    (W H L T minX maxX minY maxY : R)
    (HW : plotWidth s = Fin W) (HH : plotHeight s = Fin H)
    (HL : plotLeft s = Fin L) (HT : plotTop s = Fin T)
    (Hne : rawPositions s <> []) (Hfin : Forall finiteB (rawPositions s))
    (Hb : bboxR (rawPositions s) = (minX, maxX, minY, maxY))
    (Hw : minX < maxX) (Hh : minY < maxY) :
  let scale := Rmin ((W - L) / (maxX - minX)) ((H - T) / (maxY - minY)) in
  let repack := fun s' => option_map fst (placeBubbles fuel RawPositions s') in
  (1e-10 < Rabs (scale - 1) ->
     resizeRadius repack s =
     repack (set_rawPositions
               (map (fun p => set_radius (JNum (Fin (realOf (br p) * scale))) p)
                    (rawPositions s)) s)) /\
  (Rabs (scale - 1) <= 1e-10 ->
     exists dX dY, resizeRadius repack s = Some (set_diffs (Fin dX) (Fin dY) s) /\
       dX + (minX + maxX) / 2 = L + W / 2 /\ dY + (minY + maxY) / 2 = T + H / 2).
Proof.
  intros scale repack.
  assert (E : bboxOf (rawPositions s) = (Fin minX, Fin maxX, Fin minY, Fin maxY))
    by (rewrite (bboxOf_fin _ Hne Hfin), Hb; reflexivity).
  unfold resizeRadius. rewrite E. cbv beta iota zeta.
  rewrite HW, HH, HL, HT. fin_simp.
  rewrite !ndiv_Fin by (intro; lra). rewrite nmin_FF. fin_simp.
  fold scale. split; intros Hs.
  - rewrite nlt_Fin_true by exact Hs. f_equal. f_equal.
    rewrite Forall_forall in Hfin. apply map_ext_in. intros p Hp.
    destruct (Hfin p Hp) as [_ [_ Hr]]. unfold scaleRadius. rewrite Hr. reflexivity.
  - rewrite nlt_Fin_false by exact Hs.
    do 2 eexists. split; [reflexivity|]. split; lra.
Qed.

(** ** placeBubbles: the degenerate populations *)

(** C4 (code bug): an empty population gives the empty array, but a single
    bubble gives the flat five-element array
    [[0, 0, sortedArr[0][0], sortedArr[0][1], sortedArr[0][2]]] =
    [[0, 0, null, null, radius]] instead of one bubble at [(0, 0)]. *)
Theorem placeBubbles_single_flat (fuel : nat) :
  placeBubbles (S fuel) AllDataPoints (example_store []) = Some (example_store [], []) /\
  placeBubbles (S fuel) AllDataPoints (example_store [single_point]) =
    Some (example_store [single_point],
          [CVal (JNum (Fin 0)); CVal (JNum (Fin 0)); CVal JNull; CVal JNull;
           CVal (JNum (Fin 5))]) /\
  forall s', placeBubbles (S fuel) AllDataPoints (example_store [single_point]) <>
             Some (s', [CBubble (mkBubble (JNum (Fin 0)) (JNum (Fin 0)) (JNum (Fin 5)) 0 0)]).
Proof.
  split; [reflexivity|]. split; [reflexivity|].
  intros s'. simpl. congruence.
Qed.

(** ** placeBubbles: one iteration of the loop *)

Lemma push_at_last (bp : list (list bubble)) (x : bubble) :
  push_at (app bp [[]]) (List.length bp) x = Some (app bp [[x]]).
Proof.
  induction bp as [|ring rest IH]; [reflexivity|].
  simpl. rewrite IH. reflexivity.
Qed.

Lemma push_at_some (bp : list (list bubble)) (n : nat) (x : bubble) :
  (n < List.length bp)%nat -> exists bp', push_at bp n x = Some bp'.
Proof.
  revert n. induction bp as [|ring rest IH]; intros n Hn; simpl in Hn.
  { lia. }
  destruct n as [|n].
  - simpl. eauto.
  - simpl. destruct (IH n) as [bp' E]; [lia|]. rewrite E. simpl. eauto.
Qed.

(** C8: in an iteration of the main loop, with [bubblePos[stage][j]],
    [bubblePos[stage - 1][k]] and [bubblePos[stage][0]] defined and [stage]
    the last level, a candidate that overlaps the first bubble of the
    current level always opens a new level (placed around that first
    bubble, with [j] and [k] reset to 0), whatever the next pivot; only
    otherwise, and only when [stage > 1] and [bubblePos[stage - 1][k + 1]]
    exists and is overlapped, does the pivot advance; in every other case
    the candidate is appended as it is. *)
Theorem placeStep_cases (ps : packState) (item lastB pivot first : bubble) :
  at2 (bubblePos ps) (stage ps) (pj ps) = Some lastB ->
  at2 (bubblePos ps) (stage ps - 1) (pk ps) = Some pivot ->
  at2 (bubblePos ps) (stage ps) 0 = Some first ->
  List.length (bubblePos ps) = S (stage ps) ->
  let cand := positionBubble lastB pivot item in
  (checkOverlap cand first = true ->
     placeStep ps item =
     Some (mkPack (app (bubblePos ps) [[positionBubble lastB first item]])
                  (S (stage ps)) 0 0)) /\
  (forall np, checkOverlap cand first = false -> (1 < stage ps)%nat ->
     at2 (bubblePos ps) (stage ps - 1) (S (pk ps)) = Some np ->
     checkOverlap cand np = true ->
     exists bp', push_at (bubblePos ps) (stage ps) (positionBubble lastB np item) = Some bp' /\
       placeStep ps item = Some (mkPack bp' (stage ps) (S (pj ps)) (S (pk ps)))) /\
  (checkOverlap cand first = false ->
     ~ ((1 < stage ps)%nat /\ exists np,
          at2 (bubblePos ps) (stage ps - 1) (S (pk ps)) = Some np /\
          checkOverlap cand np = true) ->
     exists bp', push_at (bubblePos ps) (stage ps) cand = Some bp' /\
       placeStep ps item = Some (mkPack bp' (stage ps) (S (pj ps)) (pk ps))).
Proof.
  intros Hl Hp Hf Hlen cand.
  destruct ps as [bp st j k]; cbn [bubblePos stage pj pk] in *.
  assert (Hpush : forall y, exists bp', push_at bp st y = Some bp')
    by (intros y; apply push_at_some; lia).
  unfold placeStep; cbn [bubblePos stage pj pk]. rewrite Hl, Hp, Hf. cbn [obind].
  fold cand. split; [|split].
  - intros Ho. rewrite Ho. rewrite <- Hlen, push_at_last. reflexivity.
  - intros np Ho Hst Hnp Hov. rewrite Ho.
    destruct (Nat.ltb_spec 1 st) as [_|]; [|lia]. rewrite Hnp, Hov.
    destruct (Hpush (positionBubble lastB np item)) as [bp' E].
    exists bp'. rewrite E. split; reflexivity.
  - intros Ho Hnot. rewrite Ho.
    destruct (Hpush cand) as [bp' E]. exists bp'. split; [exact E|].
    destruct (Nat.ltb_spec 1 st) as [Hst|Hst].
    + destruct (at2 bp (st - 1) (S k)) as [np|] eqn:Hnp.
      * destruct (checkOverlap cand np) eqn:Hov.
        -- exfalso. apply Hnot. eauto.
        -- rewrite E. reflexivity.
      * rewrite E. reflexivity.
    + rewrite E. reflexivity.
Qed.

(** ** getRadius *)

Lemma Rceil_bounds (x : R) : x <= Rceil x < x + 1.
Proof.
  unfold Rceil. destruct (archimed (- x)) as [H1 H2].
  rewrite minus_IZR. simpl. lra.
Qed.

Lemma Rceil_IZR (x : R) : exists z, Rceil x = IZR z.
Proof. unfold Rceil. exists (- (up (- x) - 1))%Z. rewrite opp_IZR. reflexivity. Qed.

Lemma Rceil_least (x : R) (n : Z) : x <= IZR n -> Rceil x <= IZR n.
Proof.
  intros H. destruct (Rceil_IZR x) as [z Hz]. pose proof (Rceil_bounds x) as [_ Hb].
  rewrite Hz in *. apply IZR_le.
  assert (IZR z < IZR (n + 1)) by (rewrite plus_IZR; simpl; lra).
  apply lt_IZR in H0. lia.
Qed.

Lemma Rceil_mono (x y : R) : x <= y -> Rceil x <= Rceil y.
Proof.
  intros H. destruct (Rceil_IZR y) as [z Hz]. rewrite Hz. apply Rceil_least.
  pose proof (Rceil_bounds y). lra.
Qed.

Lemma Rceil_int (z : Z) : Rceil (IZR z) = IZR z.
Proof.
  apply Rle_antisym; [apply Rceil_least; lra | apply Rceil_bounds].
Qed.

Lemma radiusOf_Fin (sizeByArea : bool) (minSize maxSize value : R) :
  value <> 0 ->
  radiusOf sizeByArea (Fin minSize) (Fin maxSize) (Fin (maxSize - minSize))
           (JNum (Fin value)) = JNum (Fin (radiusR sizeByArea minSize maxSize value)).
Proof.
  intros Hv. unfold radiusOf, radiusR. cbn [null_or_zero tonum].
  destruct (Req_EM_T value 0) as [E|_]; [contradiction|].
  cbn [nlt]. destruct (Rlt_dec value minSize); [reflexivity|].
  cbn [nlt]. destruct (Rlt_dec 0 (maxSize - minSize)) as [Hr|Hr].
  - fin_simp. rewrite ndiv_Fin by (intro; lra).
    set (p := (value - minSize) / (maxSize - minSize)).
    destruct sizeByArea; cbn [andb nle]; destruct (Rle_dec 0 p) as [Hp|Hp];
      try rewrite nsqrt_Fin by exact Hp; fin_simp; cbn [nceil];
      rewrite ndiv_Fin by (intro; lra); reflexivity.
  - destruct sizeByArea; cbn [andb nle]; destruct (Rle_dec 0 0.5) as [Hp|Hp];
      try rewrite nsqrt_Fin by exact Hp; fin_simp; cbn [nceil];
      rewrite ndiv_Fin by (intro; lra); reflexivity.
Qed.




(** C9: [getRadius] never divides by zero: every non-zero finite value gets
    a finite radius, and when [maxSize <= minSize] (zero or inverted range)
    a value at or above [minSize] uses the constant position 0.5 (its square
    root when sizing by area) instead of the quotient. *)
Theorem radius_defined (sizeByArea : bool) (minSize maxSize : R) :
  (forall value, value <> 0 -> exists r,
     radiusOf sizeByArea (Fin minSize) (Fin maxSize) (Fin (maxSize - minSize))
              (JNum (Fin value)) = JNum (Fin r)) /\
  (maxSize <= minSize -> forall value, value <> 0 -> minSize <= value ->
     radiusOf sizeByArea (Fin minSize) (Fin maxSize) (Fin (maxSize - minSize))
              (JNum (Fin value)) =
     JNum (Fin (Rceil (minSize + (if sizeByArea then sqrt 0.5 else 0.5)
                                 * (maxSize - minSize)) / 2))).
Proof.
  split.
  - intros value Hv. rewrite radiusOf_Fin by exact Hv. eauto.
  - intros Hr value Hv Hlo. rewrite radiusOf_Fin by exact Hv. do 2 f_equal.
    unfold radiusR. destruct (Rlt_dec value minSize) as [H|_]; [lra|].
    destruct (Rlt_dec 0 (maxSize - minSize)) as [H|_]; [lra|].
    destruct (Rle_dec 0 0.5) as [_|H]; [|lra].
    destruct sizeByArea; reflexivity.
Qed.

(** [parseInt] drops the percent sign before [/%$/] is tested, so a
    percentage is read as a number of pixels. *)
Lemma resolveSize_10 (smallestSize : num) : resolveSize smallestSize "10%" = Fin 10.
Proof. reflexivity. Qed.

Lemma resolveSize_100 (smallestSize : num) : resolveSize smallestSize "100%" = Fin 100.
Proof. reflexivity. Qed.

(** C5 (code bug): with the default options ['10%'] and ['100%'] (resolved
    to 10 and 100, the percent sign being lost by [parseInt]), the values 5
    and 10 get the radii 9 and 5: the smaller value gets the larger bubble. *)
Theorem getRadius_not_monotone :
  radii (getRadius (example_store [mkBubble JNull JNull (JNum (Fin 5)) 0 0;
                                   mkBubble JNull JNull (JNum (Fin 10)) 0 1]))
  = [JNum (Fin 9); JNum (Fin 5)] /\ 5 < 10 /\ 5 < 9.
Proof.
  split; [|lra].
  unfold getRadius. cbn -[radiusOf nmin resolveSize].
  rewrite resolveSize_10, resolveSize_100.
  change (nsub (Fin 100) (Fin 10)) with (Fin (100 - 10)).
  rewrite !radiusOf_Fin by lra.
  unfold radiusR.
  destruct (Rlt_dec 5 10) as [_|H]; [|lra].
  destruct (Rlt_dec 10 10) as [H|_]; [lra|].
  destruct (Rlt_dec 0 (100 - 10)) as [_|H]; [|lra].
  replace ((10 - 10) / (100 - 10)) with 0 by field.
  destruct (Rle_dec 0 0) as [_|H]; [|lra]. cbn [andb].
  rewrite sqrt_0. replace (10 + 0 * (100 - 10)) with (IZR 10) by (simpl; ring).
  rewrite Rceil_int. repeat f_equal; simpl; field.
Qed.

(** ** The shared [allDataPoints] array *)

Lemma insertSorted_perm (x : bubble) (l : list bubble) :
  Permutation (insertSorted x l) (x :: l).
Proof.
  induction l as [|y ys IH]; cbn [insertSorted]; [reflexivity|].
  destruct (nlt (Fin 0) (sortCompare y x)); [reflexivity|].
  rewrite IH. apply perm_swap.
Qed.

Lemma sortDesc_perm (l : list bubble) : Permutation (sortDesc l) l.
Proof.
  unfold sortDesc.
  assert (H : forall acc, Permutation (fold_left (fun acc x => insertSorted x acc) l acc)
                                      (app (rev l) acc)).
  { induction l as [|x xs IH]; intros acc; simpl; [reflexivity|].
    rewrite IH, insertSorted_perm, <- app_assoc. reflexivity. }
  rewrite H, app_nil_r. apply Permutation_sym, Permutation_rev.
Qed.

Lemma insertSorted_head (x y : bubble) (l : list bubble) :
  Forall (fun p => br p = Fin (realOf (br p))) (x :: y :: l) ->
  HdRel radius_desc y l -> radius_desc y x -> HdRel radius_desc y (insertSorted x l).
Proof.
  intros Hf Hh Hyx. destruct l as [|z zs]; cbn [insertSorted]; [constructor; exact Hyx|].
  destruct (nlt (Fin 0) (sortCompare z x)); constructor; [exact Hyx|].
  inversion Hh; assumption.
Qed.

Lemma insertSorted_sorted (x : bubble) (l : list bubble) :
  Forall (fun p => br p = Fin (realOf (br p))) (x :: l) ->
  Sorted radius_desc l -> Sorted radius_desc (insertSorted x l).
Proof.
  induction l as [|y ys IH]; intros Hf Hs; cbn [insertSorted]; [repeat constructor|].
  inversion Hf as [|? ? Hx Hf']; inversion Hf' as [|? ? Hy Hys]; subst.
  inversion Hs as [|? ? Hs' Hh]; subst.
  unfold sortCompare. rewrite Hx, Hy. cbn [nsub nadd nneg].
  destruct (nlt (Fin 0) (Fin (realOf (br x) + - realOf (br y)))) eqn:E.
  - apply nlt_Fin in E. constructor; [exact Hs|]. constructor. unfold radius_desc. lra.
  - assert (Hle : realOf (br x) <= realOf (br y)).
    { apply Rnot_lt_le. intro C. rewrite nlt_Fin_true in E by lra. discriminate. }
    constructor.
    + apply IH; [constructor; assumption | exact Hs'].
    + apply insertSorted_head; [constructor; [|constructor]; assumption | exact Hh |].
      exact Hle.
Qed.

Lemma sortDesc_sorted_aux (l : list bubble) :
  Forall (fun p => br p = Fin (realOf (br p))) l -> Sorted radius_desc (sortDesc l).
Proof.
  intros Hf. unfold sortDesc.
  assert (H : forall acc, Forall (fun p => br p = Fin (realOf (br p))) acc ->
                Sorted radius_desc acc ->
                Sorted radius_desc (fold_left (fun acc x => insertSorted x acc) l acc)).
  { induction l as [|x xs IH]; intros acc Ha Hs; [exact Hs|].
    inversion Hf as [|? ? Hx Hxs]; subst. cbn [fold_left]. apply IH; [exact Hxs| |].
    - apply (Permutation_Forall (Permutation_sym (insertSorted_perm x acc))).
      constructor; assumption.
    - apply insertSorted_sorted; [constructor|]; assumption. }
  apply H; constructor.
Qed.

Lemma placeLoop_items (items : list bubble) (ps : packState) res :
  placeLoop ps items = Some res -> snd res = map coerceRadius items.
Proof.
  revert ps res. induction items as [|it rest IH]; intros ps res H; simpl in H.
  - inversion H; reflexivity.
  - destruct (placeStep ps (coerceRadius it)) as [ps'|]; [|discriminate]. simpl in H.
    destruct (placeLoop ps' rest) as [res'|] eqn:E; [|discriminate]. simpl in H.
    inversion H; subst. simpl. f_equal. eapply IH; eauto.
Qed.

Lemma resizeRadius_keeps_data (place : store -> option store) (s s' : store) :
  (forall t t', place t = Some t' -> allDataPoints t' = allDataPoints t) ->
  resizeRadius place s = Some s' -> allDataPoints s' = allDataPoints s.
Proof.
  intros Hp H. unfold resizeRadius in H.
  destruct (bboxOf (rawPositions s)) as [[[a b] c] d].
  destruct (nlt _ _).
  - apply Hp in H. rewrite H. reflexivity.
  - inversion H; reflexivity.
Qed.

(** The repacks started by [resizeRadius] sort [chart.rawPositions] and
    leave [allDataPoints] alone. *)
Lemma placeBubbles_raw_keeps_data (fuel : nat) (s s' : store) out :
  placeBubbles fuel RawPositions s = Some (s', out) -> allDataPoints s' = allDataPoints s.
Proof.
  revert s s' out. induction fuel as [|fuel IH]; intros s s' out H; [discriminate|].
  cbn [placeBubbles] in H.
  destruct (sortDesc (getArr RawPositions s)) as [|b0 [|b1 rest]].
  - inversion H; reflexivity.
  - inversion H; reflexivity.
  - destruct (placeLoop (initPack b0 b1) rest) as [res|]; [|discriminate]. simpl in H.
    destruct (resizeRadius _ _) as [s3|] eqn:E; [|discriminate]. simpl in H.
    inversion H; subst. apply resizeRadius_keeps_data in E; [exact E|].
    intros t t' Ht. destruct (placeBubbles fuel RawPositions t) as [[t0 o]|] eqn:Et;
      [|discriminate].
    simpl in Ht. inversion Ht; subst. eapply IH; eauto.
Qed.

(** C10: [getRadius] writes the radius over slot 2 of every entry of
    [allDataPoints] (the other slots are kept, and [series.radii] holds the
    same values); two populations that differ only in their values (3 and 4,
    both below [minSize]) give the same array afterwards, so the values
    cannot be recovered; and when [translate]'s call
    [placeBubbles(allDataPoints)] returns on numeric or [null] radii,
    [allDataPoints] holds the very array it sorted in place, a permutation of
    its entries in non-increasing order of radius, with the [|| 1] of the
    loop written into the entries after the first two; the nested repacks do
    not touch it. *)
Theorem allDataPoints_mutated :
  (forall s,
     map (fun p => (bub_x p, bub_y p, bub_series p, bub_point p)) (allDataPoints (getRadius s)) =
       map (fun p => (bub_x p, bub_y p, bub_series p, bub_point p)) (allDataPoints s) /\
     map bub_r (allDataPoints (getRadius s)) = radii (getRadius s)) /\
  (allDataPoints (getRadius (example_store [value_point 3])) =
     allDataPoints (getRadius (example_store [value_point 4])) /\
   value_point 3 <> value_point 4) /\
  (forall fuel s s' out,
     Forall (fun p => br p = Fin (realOf (br p))) (allDataPoints s) ->
     placeBubbles fuel AllDataPoints s = Some (s', out) ->
     Permutation (sortDesc (allDataPoints s)) (allDataPoints s) /\
     Sorted radius_desc (sortDesc (allDataPoints s)) /\
     allDataPoints s' =
       match sortDesc (allDataPoints s) with
       | b0 :: b1 :: rest => b0 :: b1 :: map coerceRadius rest
       | l => l
       end).
Proof.
  split; [|split].
  - intros s. unfold getRadius. cbn [allDataPoints radii set_sizes set_allDataPoints].
    rewrite !map_map. split; [apply map_ext; reflexivity|reflexivity].
  - split.
    + unfold getRadius. cbn -[radiusOf nmin resolveSize].
      rewrite resolveSize_10, resolveSize_100.
      change (nsub (Fin 100) (Fin 10)) with (Fin (100 - 10)).
      rewrite !radiusOf_Fin by lra. unfold radiusR.
      destruct (Rlt_dec 3 10) as [_|Hn]; [|lra].
      destruct (Rlt_dec 4 10) as [_|Hn]; [|lra].
      reflexivity.
    + unfold value_point. intros He. inversion He. lra.
  - intros fuel s s' out Hf H. split; [apply sortDesc_perm|].
    split; [apply sortDesc_sorted_aux; exact Hf|].
    destruct fuel as [|fuel]; [discriminate|].
    cbn [placeBubbles] in H. cbn [getArr] in H.
    destruct (sortDesc (allDataPoints s)) as [|b0 [|b1 rest]].
    + inversion H; reflexivity.
    + inversion H; reflexivity.
    + destruct (placeLoop (initPack b0 b1) rest) as [res|] eqn:El; [|discriminate].
      simpl in H.
      destruct (resizeRadius _ _) as [s3|] eqn:E; [|discriminate]. simpl in H.
      inversion H; subst. apply resizeRadius_keeps_data in E.
      * rewrite E. cbn. rewrite (placeLoop_items _ _ _ El). reflexivity.
      * intros t t' Ht. destruct (placeBubbles fuel RawPositions t) as [[t0 o]|] eqn:Et;
          [|discriminate].
        simpl in Ht. inversion Ht; subst. eapply placeBubbles_raw_keeps_data; eauto.
Qed.

(** ** A ring that never closes *)

Lemma nlt_Fin_dec (a b : R) : nlt (Fin a) (Fin b) = if Rlt_dec a b then true else false.
Proof. reflexivity. Qed.

(** [positionBubble] on finite bubbles, when both [Math.acos] and
    [Math.asin] get arguments in [-1, 1]. *)
Lemma positionBubble_explicit (L O N : bubble) (lx ly lr ox oy or nr : R) :
  bx L = Fin lx -> by' L = Fin ly -> br L = Fin lr ->
  bx O = Fin ox -> by' O = Fin oy -> br O = Fin or -> br N = Fin nr ->
  0 < (lx - ox) * (lx - ox) + (ly - oy) * (ly - oy) -> nr + or <> 0 ->
  -1 <= cosRatio lx ly lr ox oy or nr <= 1 ->
  positionBubble L O N =
  mkBubble (JNum (Fin (ox + (or + nr) * sin (finalAngleR lx ly lr ox oy or nr))))
           (JNum (Fin (oy - (or + nr) * cos (finalAngleR lx ly lr ox oy or nr))))
           (bub_r N) (bub_series N) (bub_point N).
Proof.
  intros HLx HLy HLr HOx HOy HOr HNr Hd Hs Hr.
  unfold positionBubble. rewrite HLx, HLy, HLr, HOx, HOy, HOr, HNr.
  fin_simp.
  rewrite nsqrt_Fin by apply sum_sq_nonneg.
  fin_simp.
  set (d := sqrt ((lx - ox) * (lx - ox) + (ly - oy) * (ly - oy))).
  assert (Hdpos : 0 < d) by (apply sqrt_lt_R0; exact Hd).
  rewrite (ndiv_Fin _ (2 * (nr + or) * d)).
  2:{ apply Rmult_integral_contrapositive_currified; [|lra].
      apply Rmult_integral_contrapositive_currified; lra. }
  rewrite nacos_Fin by exact Hr.
  rewrite (ndiv_Fin (Rabs (lx - ox)) d) by lra.
  rewrite nasin_Fin.
  2:{ split.
      - apply Rle_trans with 0; [lra|]. unfold Rdiv; apply Rmult_le_pos;
          [apply Rabs_pos | left; apply Rinv_0_lt_compat; lra].
      - apply Rmult_le_reg_r with d; [lra|]. unfold Rdiv; rewrite Rmult_assoc, Rinv_l by lra.
        rewrite Rmult_1_r, Rmult_1_l. apply abs_le_norm. }
  rewrite !nlt_Fin_dec. unfold finalAngleR. fold d.
  destruct (Rlt_dec (ly - oy) 0), (Rlt_dec ((lx - ox) * (ly - oy)) 0);
    fin_simp; reflexivity.
Qed.

Lemma sqrt3_pos : 0 < sqrt 3.
Proof. apply sqrt_lt_R0; lra. Qed.

Lemma sqrt3_sq : sqrt 3 * sqrt 3 = 3.
Proof. apply sqrt_sqrt; lra. Qed.

Lemma sqrt3_bounds : 1.7 < sqrt 3 < 1.8.
Proof. pose proof sqrt3_pos; pose proof sqrt3_sq; split; nra. Qed.

Lemma acos_half : acos (1 / 2) = PI / 3.
Proof. rewrite <- cos_PI3. apply acos_cos. pose proof PI_RGT_0. lra. Qed.

Lemma asin_sqrt3_half : asin (sqrt 3 / 2) = PI / 3.
Proof. rewrite <- sin_PI3. apply asin_sin. pose proof PI_RGT_0. lra. Qed.

Lemma sin_2PI3 : sin (PI - PI / 3) = sqrt 3 / 2.
Proof. rewrite sin_PI_x. apply sin_PI3. Qed.

Lemma cos_2PI3 : cos (PI - PI / 3) = - (1 / 2).
Proof. rewrite Rtrigo_facts.cos_pi_minus, cos_PI3. reflexivity. Qed.

(** Around a unit bubble at the origin, a unit bubble tangent to it is
    followed at the angle [PI / 3]. *)
Lemma finalAngle_ring (lx ly : R) :
  lx * lx + ly * ly = 4 ->
  finalAngleR lx ly 1 0 0 1 1 =
  (if Rlt_dec (ly - 0) 0 then 0 else PI) + PI / 3 +
  asin (Rabs (lx - 0) / 2) * (if Rlt_dec ((lx - 0) * (ly - 0)) 0 then 1 else -1).
Proof.
  intros H. unfold finalAngleR, cosRatio.
  replace ((lx - 0) * (lx - 0) + (ly - 0) * (ly - 0)) with (2 * 2) by lra.
  rewrite sqrt_square by lra.
  replace ((2 * 2 + (1 + 1) * (1 + 1) - (1 + 1) * (1 + 1)) / (2 * (1 + 1) * 2))
    with (1 / 2) by field.
  rewrite acos_half. reflexivity.
Qed.

Lemma cosRatio_ring (lx ly : R) : lx * lx + ly * ly = 4 -> cosRatio lx ly 1 0 0 1 1 = 1 / 2.
Proof.
  intros H. unfold cosRatio.
  replace ((lx - 0) * (lx - 0) + (ly - 0) * (ly - 0)) with (2 * 2) by lra.
  rewrite sqrt_square by lra. field.
Qed.

Lemma ring_position (lx ly : R) (k i : nat) :
  lx * lx + ly * ly = 4 ->
  positionBubble (placed lx ly k) (placed 0 0 0) (coerceRadius (null_point i)) =
  placed (0 + (1 + 1) * sin (finalAngleR lx ly 1 0 0 1 1))
         (0 - (1 + 1) * cos (finalAngleR lx ly 1 0 0 1 1)) i.
Proof.
  intros H.
  rewrite (positionBubble_explicit _ _ _ lx ly 1 0 0 1 1); try reflexivity.
  - lra.
  - lra.
  - rewrite cosRatio_ring by exact H. lra.
Qed.

Lemma asin_abs_zero : asin (Rabs (0 - 0) / 2) = 0.
Proof. replace (Rabs (0 - 0) / 2) with 0 by (rewrite Rminus_0_r, Rabs_R0; field). apply asin_0. Qed.

Lemma asin_abs_sqrt3 (x : R) : Rabs x = sqrt 3 -> asin (Rabs (x - 0) / 2) = PI / 3.
Proof. intros H. rewrite Rminus_0_r, H. apply asin_sqrt3_half. Qed.

Lemma Rabs_sqrt3 : Rabs (sqrt 3) = sqrt 3.
Proof. apply Rabs_pos_eq. pose proof sqrt3_pos. lra. Qed.

Lemma Rabs_neg_sqrt3 : Rabs (- sqrt 3) = sqrt 3.
Proof. rewrite Rabs_Ropp. apply Rabs_sqrt3. Qed.

Ltac settle_ifs :=
  pose proof sqrt3_bounds;
  repeat match goal with
  | |- context [Rlt_dec ?a ?b] =>
      destruct (Rlt_dec a b); [try (exfalso; nra) | try (exfalso; nra)]
  end.

(** The second seed, [null]-radius, sits at [(0, -1)]; the first bubble of
    the loop goes straight below it. *)
Lemma ring_step2 :
  positionBubble (seed1 (mkBubble JNull JNull (JNum (Fin 1)) 0 0) (null_point 1))
                 (placed 0 0 0) (coerceRadius (null_point 2)) = placed 0 (-2) 2.
Proof.
  rewrite (positionBubble_explicit _ _ _ 0 (-1) 0 0 0 1 1); try reflexivity.
  - assert (Hc : cosRatio 0 (-1) 0 0 0 1 1 = 1).
    { unfold cosRatio.
      replace ((0 - 0) * (0 - 0) + (-1 - 0) * (-1 - 0)) with (1 * 1) by ring.
      rewrite sqrt_square by lra. field. }
    assert (Ha : finalAngleR 0 (-1) 0 0 0 1 1 = 0).
    { unfold finalAngleR. rewrite Hc, acos_1.
      replace (Rabs (0 - 0) / sqrt ((0 - 0) * (0 - 0) + (-1 - 0) * (-1 - 0))) with 0
        by (rewrite Rminus_0_r, Rabs_R0; unfold Rdiv; ring).
      rewrite asin_0. settle_ifs; ring. }
    rewrite Ha, sin_0, cos_0. unfold placed. f_equal; f_equal; f_equal; ring.
  - unfold by', seed1. cbn. f_equal. ring.
  - lra.
  - lra.
  - replace (cosRatio 0 (-1) 0 0 0 1 1) with 1; [lra|].
    unfold cosRatio.
    replace ((0 - 0) * (0 - 0) + (-1 - 0) * (-1 - 0)) with (1 * 1) by ring.
    rewrite sqrt_square by lra. field.
Qed.

Lemma ring_step3 :
  positionBubble (placed 0 (-2) 2) (placed 0 0 0) (coerceRadius (null_point 3)) =
  placed (sqrt 3) (-1) 3.
Proof.
  rewrite ring_position by lra. rewrite finalAngle_ring by lra.
  rewrite asin_abs_zero. settle_ifs.
  replace (0 + PI / 3 + 0 * -1) with (PI / 3) by ring.
  rewrite sin_PI3, cos_PI3. unfold placed. f_equal; f_equal; f_equal; field.
Qed.

Lemma ring_step4 :
  positionBubble (placed (sqrt 3) (-1) 3) (placed 0 0 0) (coerceRadius (null_point 4)) =
  placed (sqrt 3) 1 4.
Proof.
  pose proof sqrt3_sq.
  rewrite ring_position by lra. rewrite finalAngle_ring by lra.
  rewrite (asin_abs_sqrt3 _ Rabs_sqrt3). settle_ifs.
  replace (0 + PI / 3 + PI / 3 * 1) with (PI - PI / 3) by field.
  rewrite sin_2PI3, cos_2PI3. unfold placed. f_equal; f_equal; f_equal; field.
Qed.

Lemma ring_step5 :
  positionBubble (placed (sqrt 3) 1 4) (placed 0 0 0) (coerceRadius (null_point 5)) =
  placed 0 2 5.
Proof.
  pose proof sqrt3_sq.
  rewrite ring_position by lra. rewrite finalAngle_ring by lra.
  rewrite (asin_abs_sqrt3 _ Rabs_sqrt3). settle_ifs.
  replace (PI + PI / 3 + PI / 3 * -1) with PI by field.
  rewrite sin_PI, cos_PI. unfold placed. f_equal; f_equal; f_equal; field.
Qed.

Lemma ring_step6 :
  positionBubble (placed 0 2 5) (placed 0 0 0) (coerceRadius (null_point 6)) =
  placed (- sqrt 3) 1 6.
Proof.
  rewrite ring_position by lra. rewrite finalAngle_ring by lra.
  rewrite asin_abs_zero. settle_ifs.
  replace (PI + PI / 3 + 0 * -1) with (PI / 3 + PI) by field.
  rewrite neg_sin, neg_cos, sin_PI3, cos_PI3. unfold placed. f_equal; f_equal; f_equal; field.
Qed.

Lemma ring_step7 :
  positionBubble (placed (- sqrt 3) 1 6) (placed 0 0 0) (coerceRadius (null_point 7)) =
  placed (- sqrt 3) (-1) 7.
Proof.
  pose proof sqrt3_sq.
  rewrite ring_position by lra. rewrite finalAngle_ring by lra.
  rewrite (asin_abs_sqrt3 _ Rabs_neg_sqrt3). settle_ifs.
  replace (PI + PI / 3 + PI / 3 * 1) with ((PI - PI / 3) + PI) by field.
  rewrite neg_sin, neg_cos, sin_2PI3, cos_2PI3. unfold placed.
  f_equal; f_equal; f_equal; field.
Qed.

Lemma ring_step8 :
  positionBubble (placed (- sqrt 3) (-1) 7) (placed 0 0 0) (coerceRadius (null_point 8)) =
  placed 0 (-2) 8.
Proof.
  pose proof sqrt3_sq.
  rewrite ring_position by lra. rewrite finalAngle_ring by lra.
  rewrite (asin_abs_sqrt3 _ Rabs_neg_sqrt3). settle_ifs.
  replace (0 + PI / 3 + PI / 3 * -1) with 0 by field.
  rewrite sin_0, cos_0. unfold placed. f_equal; f_equal; f_equal; field.
Qed.

Lemma checkOverlap_apart (c1 c2 : bubble) (x1 y1 r1 x2 y2 r2 : R) :
  bx c1 = Fin x1 -> by' c1 = Fin y1 -> br c1 = Fin r1 ->
  bx c2 = Fin x2 -> by' c2 = Fin y2 -> br c2 = Fin r2 ->
  0 <= r1 + r2 -> (r1 + r2) * (r1 + r2) <= (x1 - x2) * (x1 - x2) + (y1 - y2) * (y1 - y2) ->
  checkOverlap c1 c2 = false.
Proof.
  intros H1 H2 H3 H4 H5 H6 Hr Hd. unfold checkOverlap.
  rewrite H1, H2, H3, H4, H5, H6. fin_simp.
  rewrite nsqrt_Fin by apply sum_sq_nonneg. fin_simp.
  apply nlt_Fin_false. rewrite Rabs_pos_eq by exact Hr.
  assert (r1 + r2 <= sqrt ((x1 - x2) * (x1 - x2) + (y1 - y2) * (y1 - y2))).
  { rewrite <- (sqrt_square (r1 + r2)) by exact Hr. apply sqrt_le_1_alt. exact Hd. }
  lra.
Qed.

Lemma seed1_ring_y : by' (seed1 (mkBubble JNull JNull (JNum (Fin 1)) 0 0) (null_point 1)) = Fin (-1).
Proof. unfold by', seed1. cbn. f_equal. ring. Qed.

(** The first bubble of the ring is the [null]-radius seed at [(0, -1)]:
    no bubble of radius 1 around the unit bubble overlaps it. *)
Lemma ring_first_apart (x y : R) (i : nat) :
  1 <= (x - 0) * (x - 0) + (y - -1) * (y - -1) ->
  checkOverlap (placed x y i) (seed1 (mkBubble JNull JNull (JNum (Fin 1)) 0 0) (null_point 1))
  = false.
Proof.
  intros H. apply (checkOverlap_apart _ _ x y 1 0 (-1) 0); try reflexivity.
  - apply seed1_ring_y.
  - lra.
  - lra.
Qed.

Lemma placeStep_ring_push (b0 first lastB item c : bubble) (rest : list bubble) (j : nat) :
  nth_error (first :: rest) j = Some lastB ->
  positionBubble lastB b0 item = c ->
  checkOverlap c first = false ->
  placeStep (mkPack [[b0]; first :: rest] 1 j 0) item =
  Some (mkPack [[b0]; app (first :: rest) [c]] 1 (S j) 0).
Proof.
  intros Hl Hp Ho. unfold placeStep, at2. cbn [bubblePos stage pj pk nth_error Nat.sub].
  rewrite Hl. cbn [obind]. rewrite Hp, Ho. reflexivity.
Qed.

Ltac ring_push step :=
  erewrite placeStep_ring_push;
  [ cbn [obind app]
  | reflexivity
  | exact step
  | apply ring_first_apart; pose proof sqrt3_sq; pose proof sqrt3_bounds; nra ].

Lemma ring_loop :
  placeLoop (initPack (mkBubble JNull JNull (JNum (Fin 1)) 0 0) (null_point 1))
            (map null_point [2;3;4;5;6;7;8]%nat) =
  Some (mkPack [[placed 0 0 0];
                [seed1 (mkBubble JNull JNull (JNum (Fin 1)) 0 0) (null_point 1);
                 placed 0 (-2) 2; placed (sqrt 3) (-1) 3; placed (sqrt 3) 1 4;
                 placed 0 2 5; placed (- sqrt 3) 1 6; placed (- sqrt 3) (-1) 7;
                 placed 0 (-2) 8]] 1 7 0,
        map coerceRadius (map null_point [2;3;4;5;6;7;8]%nat)).
Proof.
  unfold initPack. cbn [placeLoop map].
  ring_push ring_step2.
  ring_push ring_step3.
  ring_push ring_step4.
  ring_push ring_step5.
  ring_push ring_step6.
  ring_push ring_step7.
  ring_push ring_step8.
  reflexivity.
Qed.

Lemma insert_zero_last (x : bubble) (l : list bubble) :
  br x = Fin 0 -> Forall (fun y => exists r, br y = Fin r /\ 0 <= r) l ->
  insertSorted x l = app l [x].
Proof.
  intros Hx Hl. induction Hl as [|y ys [r [Hy Hr]] _ IH]; [reflexivity|].
  cbn [insertSorted]. unfold sortCompare. rewrite Hx, Hy, nsub_FF, nlt_Fin_false by lra.
  rewrite IH. reflexivity.
Qed.

Lemma fold_insert_zero (l acc : list bubble) :
  Forall (fun y => br y = Fin 0) l ->
  Forall (fun y => exists r, br y = Fin r /\ 0 <= r) acc ->
  fold_left (fun acc x => insertSorted x acc) l acc = app acc l.
Proof.
  revert acc. induction l as [|x xs IH]; intros acc Hl Hacc; [symmetry; apply app_nil_r|].
  inversion Hl as [|? ? Hx Hxs]; subst. cbn [fold_left].
  rewrite insert_zero_last by assumption.
  rewrite IH, <- app_assoc; [reflexivity|assumption|].
  apply Forall_app. split; [assumption|]. constructor; [|constructor].
  exists 0. split; [assumption|lra].
Qed.

(** The comparator keeps the unit bubble first and the [null] radii in
    their order. *)
Lemma sortDesc_ring : sortDesc ring_data = ring_data.
Proof.
  unfold sortDesc, ring_data. cbn [fold_left insertSorted].
  rewrite fold_insert_zero; [reflexivity| |].
  - repeat constructor.
  - constructor; [|constructor]. exists 1. split; [reflexivity|lra].
Qed.

Lemma resolveSize_2 (smallestSize : num) : resolveSize smallestSize "2" = Fin 2.
Proof. reflexivity. Qed.

Lemma radiusOf_zero (sizeByArea : bool) (minSize maxSize radiusRange : num) :
  radiusOf sizeByArea minSize maxSize radiusRange (JNum (Fin 0)) = JNull.
Proof. unfold radiusOf, null_or_zero. destruct (Req_EM_T 0 0); [reflexivity|contradiction]. Qed.

(** [getRadius] on the values [5, 0, ..., 0] with both sizes 2. *)
Lemma getRadius_ring : allDataPoints (getRadius ring_values_store) = ring_data.
Proof.
  unfold getRadius. cbn -[radiusOf nmin resolveSize].
  rewrite !resolveSize_2. change (nsub (Fin 2) (Fin 2)) with (Fin (2 - 2)).
  rewrite !radiusOf_zero, radiusOf_Fin by lra.
  unfold ring_data, radiusR. cbn [map].
  destruct (Rlt_dec 5 2) as [H|_]; [lra|].
  destruct (Rlt_dec 0 (2 - 2)) as [H|_]; [lra|].
  destruct (Rle_dec 0 0.5) as [_|H]; [|lra]. cbn [andb].
  replace (2 + sqrt 0.5 * (2 - 2)) with (IZR 2) by ring.
  rewrite Rceil_int. replace (IZR 2 / 2) with 1 by (simpl; field). reflexivity.
Qed.

Ltac settle_minmax :=
  pose proof sqrt3_bounds;
  repeat match goal with
  | |- context [Rmin ?a ?b] =>
      first [rewrite (Rmin_left a b) by lra | rewrite (Rmin_right a b) by lra]
  | |- context [Rmax ?a ?b] =>
      first [rewrite (Rmax_left a b) by lra | rewrite (Rmax_right a b) by lra]
  end.

Lemma bboxR_ring : bboxR ring_positions = (- sqrt 3 - 1, sqrt 3 + 1, -3, 3).
Proof.
  unfold bboxR, ring_positions.
  cbn [fold_left bboxStepR realOf bx by' br tonum placed seed1 null_point
       bub_x bub_y bub_r nsub nadd nneg].
  settle_minmax.
  repeat f_equal; ring.
Qed.

Lemma bboxOf_ring :
  bboxOf ring_positions = (Fin (- sqrt 3 - 1), Fin (sqrt 3 + 1), Fin (-3), Fin 3).
Proof.
  rewrite bboxOf_fin.
  - rewrite bboxR_ring. reflexivity.
  - discriminate.
  - unfold ring_positions. repeat constructor.
Qed.

(** The bounding box is [2 sqrt 3 + 2] wide and 6 high: in the 100 x 6 plot
    area the scale factor is exactly 1 and the layout is final. *)
Lemma resizeRadius_ring (place : store -> option store) (s : store) :
  plotLeft s = Fin 0 -> plotTop s = Fin 0 -> plotWidth s = Fin 100 -> plotHeight s = Fin 6 ->
  rawPositions s = ring_positions ->
  exists dX dY, resizeRadius place s = Some (set_diffs dX dY s).
Proof.
  intros HL HT HW HH HR. pose proof sqrt3_bounds.
  unfold resizeRadius. rewrite HR, bboxOf_ring. cbv beta iota zeta.
  rewrite HL, HT, HW, HH. fin_simp.
  rewrite !ndiv_Fin by (intro; lra). rewrite nmin_FF.
  replace ((6 - 0) / (3 - -3)) with 1 by field.
  assert (Hx : 1 <= (100 - 0) / (sqrt 3 + 1 - (- sqrt 3 - 1))).
  { apply (Rmult_le_reg_r (sqrt 3 + 1 - (- sqrt 3 - 1))); [lra|].
    unfold Rdiv. rewrite Rmult_assoc, Rinv_l by lra. lra. }
  rewrite Rmin_right by exact Hx. fin_simp.
  replace (1 - 1) with 0 by ring. rewrite Rabs_R0, nlt_Fin_false by lra.
  eauto.
Qed.

Lemma ring_overlap : checkOverlap (placed 0 (-2) 2) (placed 0 (-2) 8) = true.
Proof.
  unfold checkOverlap, placed, bx, by', br. cbn [bub_x bub_y bub_r tonum].
  fin_simp. replace ((0 - 0) * (0 - 0) + (-2 - -2) * (-2 - -2)) with 0 by ring.
  rewrite nsqrt_Fin, sqrt_0 by lra. fin_simp. apply nlt_Fin_true.
  rewrite Rabs_pos_eq by lra. lra.
Qed.

Lemma ring_data_split :
  ring_data = mkBubble JNull JNull (JNum (Fin 1)) 0 0 :: null_point 1 ::
              map null_point [2;3;4;5;6;7;8]%nat.
Proof. reflexivity. Qed.

(** C1 (code bug): a finalized layout can contain overlapping bubbles.  For
    the values [5, 0, 0, 0, 0, 0, 0, 0, 0] with [minPointSize] and
    [maxPointSize] both 2, in a 100 x 6 plot area, [getRadius] gives the
    radius 1 to the first point and [null] to the others.  The second seed
    keeps its [null] radius (the [|| 1] is only applied from the third point
    on), so the first bubble of the ring is a point that no unit bubble ever
    overlaps and the ring never closes: the unit bubbles go round the centre
    by steps of [PI / 3] and the seventh lands on the first, at [(0, -2)].
    The scale factor is 1, so [resizeRadius] centres this layout and
    [placeBubbles] returns it, with positions 2 and 8 overlapping. *)
Theorem placeBubbles_ring_overlap (fuel : nat) :
  exists s',
    layout (S fuel) ring_values_store = Some (s', map CBubble (rawPositions s')) /\
    diffX s' <> None /\
    rawPositions s' = ring_positions /\
    nth_error (rawPositions s') 2 = Some (placed 0 (-2) 2) /\
    nth_error (rawPositions s') 8 = Some (placed 0 (-2) 8) /\
    checkOverlap (placed 0 (-2) 2) (placed 0 (-2) 8) = true.
Proof.
  unfold layout. cbn [placeBubbles getArr].
  rewrite getRadius_ring, sortDesc_ring, ring_data_split. cbv beta iota zeta.
  rewrite ring_loop. cbn [obind fst snd bubblePos].
  match goal with
  | |- context [resizeRadius ?place ?s] =>
      destruct (resizeRadius_ring place s) as [dX [dY E]];
      [reflexivity | reflexivity | reflexivity | reflexivity | reflexivity | rewrite E]
  end.
  cbn [obind].
  eexists. split; [reflexivity|]. split; [discriminate|].
  split; [reflexivity|]. split; [reflexivity|]. split; [reflexivity|].
  exact ring_overlap.
Qed.

(** ** Counterexample to the tangency of every placed bubble *)

(** C2 refuted: a last bubble 100 away from the origin bubble, both of
    radius 1, and a next bubble of radius 1.  The law-of-cosines ratio is
    [(100^2 + 2^2 - 2^2) / (2 * 2 * 100) = 25], [Math.acos] gives NaN and the
    new centre is [(NaN, NaN)], at no distance from the origin. *)
Lemma positionBubble_far_NaN :
  let P := positionBubble (finite_bubble 100 0 1 0 0) (finite_bubble 0 0 1 0 1)
                          (mkBubble JNull JNull (JNum (Fin 1)) 0 2) in
  cosRatio 100 0 1 0 0 1 1 = 25 /\ bub_x P = JNum NaN /\ bub_y P = JNum NaN.
Proof.
  intros P.
  assert (Hc : cosRatio 100 0 1 0 0 1 1 = 25).
  { unfold cosRatio.
    replace ((100 - 0) * (100 - 0) + (0 - 0) * (0 - 0)) with (100 * 100) by ring.
    rewrite sqrt_square by lra. field. }
  split; [exact Hc|].
  destruct (positionBubble_Fin 100 0 1 0 0 1 1 JNull JNull 0 0 0 1 0 2) as [g [b E]];
    [lra | lra |].
  cbv zeta in E. unfold P, finite_bubble. rewrite E, Hc, nacos_out by lra.
  split; reflexivity.
Qed.

Lemma same_centre_overlap (x y : R) (i j : nat) :
  checkOverlap (placed x y i) (placed x y j) = true.
Proof.
  unfold checkOverlap, placed, bx, by', br. cbn [bub_x bub_y bub_r tonum].
  fin_simp. replace ((x - x) * (x - x) + (y - y) * (y - y)) with 0 by ring.
  rewrite nsqrt_Fin, sqrt_0 by lra. fin_simp. apply nlt_Fin_true.
  rewrite Rabs_pos_eq by lra. lra.
Qed.

Lemma far_from_ring_step8 :
  checkOverlap (placed 0 (-2) 8) (placed 0 10 20) = false.
Proof. apply (checkOverlap_apart _ _ 0 (-2) 1 0 10 1); try reflexivity; nra. Qed.

Lemma getRadius_shuffled : allDataPoints (getRadius shuffled_values_store) = shuffled_data.
Proof.
  unfold getRadius. cbn -[radiusOf nmin resolveSize].
  rewrite !resolveSize_2. change (nsub (Fin 2) (Fin 2)) with (Fin (2 - 2)).
  rewrite !radiusOf_zero, radiusOf_Fin by lra.
  unfold shuffled_data, radiusR. cbn [map].
  destruct (Rlt_dec 5 2) as [H|_]; [lra|].
  destruct (Rlt_dec 0 (2 - 2)) as [H|_]; [lra|].
  destruct (Rle_dec 0 0.5) as [_|H]; [|lra]. cbn [andb].
  replace (2 + sqrt 0.5 * (2 - 2)) with (IZR 2) by ring.
  rewrite Rceil_int. replace (IZR 2 / 2) with 1 by (simpl; field). reflexivity.
Qed.

(** The sort moves the unit bubble in front of the [null] radius. *)
Lemma sortDesc_shuffled : sortDesc shuffled_data = ring_data.
Proof.
  unfold sortDesc, shuffled_data. cbn [fold_left insertSorted].
  replace (sortCompare (null_point 1) (mkBubble JNull JNull (JNum (Fin 1)) 0 0)) with (Fin 1)
    by (unfold sortCompare; cbn; f_equal; ring).
  rewrite nlt_Fin_true by lra.
  rewrite fold_insert_zero; [reflexivity| |].
  - repeat constructor.
  - constructor; [exists 1; split; [reflexivity|lra]|].
    constructor; [exists 0; split; [reflexivity|lra]|]. constructor.
Qed.

Lemma shuffled_run :
  exists s', placeBubbles 1 AllDataPoints (getRadius shuffled_values_store) =
             Some (s', map CBubble (rawPositions s')).
Proof.
  cbn [placeBubbles getArr].
  rewrite getRadius_shuffled, sortDesc_shuffled, ring_data_split. cbv beta iota zeta.
  rewrite ring_loop. cbn [obind fst snd bubblePos].
  match goal with
  | |- context [resizeRadius ?place ?s] =>
      destruct (resizeRadius_ring place s) as [dX [dY E]];
      [reflexivity | reflexivity | reflexivity | reflexivity | reflexivity | rewrite E]
  end.
  cbn [obind]. eexists. reflexivity.
Qed.

(** * Instances of the hypotheses *)

(** Two unit circles whose centres are 2 apart are tangent. *)
Lemma checkOverlap_iff_witness :
  (0 <= 1 /\ 0 <= 1) /\
  checkOverlap (mkBubble (JNum (Fin 0)) (JNum (Fin 0)) (JNum (Fin 1)) 0 0)
               (mkBubble (JNum (Fin 2)) (JNum (Fin 0)) (JNum (Fin 1)) 0 1) = false.
Proof.
  split; [split; lra|].
  apply (proj2 (checkOverlap_iff 0 0 1 2 0 1 0 0 0 1 ltac:(lra) ltac:(lra))).
  replace ((0 - 2) ^ 2 + (0 - 0) ^ 2) with (2 * 2) by ring.
  rewrite sqrt_square by lra. ring.
Defined.

(** A unit bubble placed after one that touches the unit origin bubble. *)
Lemma positionBubble_tangent_witness :
  (0 < (0 - 0) * (0 - 0) + (-2 - 0) * (-2 - 0) /\ 0 < 1 + 1) /\
  exists px py,
    bub_x (positionBubble (finite_bubble 0 (-2) 1 0 0) (finite_bubble 0 0 1 0 1)
                          (mkBubble JNull JNull (JNum (Fin 1)) 0 2)) = JNum (Fin px) /\
    bub_y (positionBubble (finite_bubble 0 (-2) 1 0 0) (finite_bubble 0 0 1 0 1)
                          (mkBubble JNull JNull (JNum (Fin 1)) 0 2)) = JNum (Fin py) /\
    sqrt ((px - 0) * (px - 0) + (py - 0) * (py - 0)) = 1 + 1.
Proof.
  split; [split; lra|].
  apply (proj1 (positionBubble_tangent 0 (-2) 1 0 0 1 1 JNull JNull 0 0 0 1 0 2
                  ltac:(lra) ltac:(lra))).
  rewrite cosRatio_ring by lra. lra.
Defined.

(** One unit bubble at the origin of a 100 x 6 plot area: the scale factor
    is 3, so the radius is tripled and the array packed again. *)
Lemma resizeRadius_repack_or_centre_witness :
  (plotWidth (set_rawPositions [placed 0 0 0] (example_store [])) = Fin 100 /\
   plotHeight (set_rawPositions [placed 0 0 0] (example_store [])) = Fin 6 /\
   plotLeft (set_rawPositions [placed 0 0 0] (example_store [])) = Fin 0 /\
   plotTop (set_rawPositions [placed 0 0 0] (example_store [])) = Fin 0 /\
   rawPositions (set_rawPositions [placed 0 0 0] (example_store [])) <> [] /\
   Forall finiteB (rawPositions (set_rawPositions [placed 0 0 0] (example_store []))) /\
   bboxR (rawPositions (set_rawPositions [placed 0 0 0] (example_store []))) =
     (0 - 1, 0 + 1, 0 - 1, 0 + 1) /\
   0 - 1 < 0 + 1 /\ 0 - 1 < 0 + 1) /\
  resizeRadius (fun s' => option_map fst (placeBubbles 1 RawPositions s'))
               (set_rawPositions [placed 0 0 0] (example_store [])) =
  option_map fst (placeBubbles 1 RawPositions
    (set_rawPositions
       (map (fun p => set_radius (JNum (Fin (realOf (br p) *
               Rmin ((100 - 0) / (0 + 1 - (0 - 1))) ((6 - 0) / (0 + 1 - (0 - 1)))))) p)
            [placed 0 0 0])
       (set_rawPositions [placed 0 0 0] (example_store [])))).
Proof.
  split.
  { split; [reflexivity|]. split; [reflexivity|]. split; [reflexivity|].
    split; [reflexivity|]. split; [discriminate|]. split; [repeat constructor|].
    split; [reflexivity|]. split; lra. }
  apply (proj1 (resizeRadius_repack_or_centre 1
                  (set_rawPositions [placed 0 0 0] (example_store []))
                  100 6 0 0 (0 - 1) (0 + 1) (0 - 1) (0 + 1)
                  eq_refl eq_refl eq_refl eq_refl ltac:(discriminate)
                  ltac:(repeat constructor) eq_refl ltac:(lra) ltac:(lra))).
  replace ((100 - 0) / (0 + 1 - (0 - 1))) with 50 by field.
  replace ((6 - 0) / (0 + 1 - (0 - 1))) with 3 by field.
  rewrite Rmin_right by lra. rewrite Rabs_pos_eq by lra. lra.
Defined.

Lemma tangent_after_ring_step3 :
  checkOverlap (placed (sqrt 3) (-1) 3) (placed 0 (-2) 2) = false.
Proof.
  apply (checkOverlap_apart _ _ (sqrt 3) (-1) 1 0 (-2) 1); try reflexivity.
  - lra.
  - pose proof sqrt3_sq. nra.
Qed.

(** The four cases of an iteration.  (1) The seventh unit bubble round a
    unit bubble lands on the first bubble of the ring, [(0, -2)]: the ring
    closes and a new level opens.  (2) On level 2, a candidate that overlaps
    both [bubblePos[2][0]] and the next pivot [bubblePos[1][1]] opens a new
    level: the ring-closing test wins.  (3) The same candidate, with
    [bubblePos[2][0]] far away, overlaps only the next pivot: the pivot
    advances.  (4) On level 1, right after the seeds, the candidate only
    touches the first bubble of the level and there is no previous level to
    advance on: it is appended. *)
Lemma placeStep_cases_witness :
  (at2 unit_ring_levels 1 5 = Some (placed (- sqrt 3) (-1) 7) /\
   at2 unit_ring_levels (1 - 1) 0 = Some (placed 0 0 0) /\
   at2 unit_ring_levels 1 0 = Some (placed 0 (-2) 2) /\
   List.length unit_ring_levels = S 1 /\
   checkOverlap (positionBubble (placed (- sqrt 3) (-1) 7) (placed 0 0 0)
                                (coerceRadius (null_point 8))) (placed 0 (-2) 2) = true /\
   placeStep (mkPack unit_ring_levels 1 5 0) (coerceRadius (null_point 8)) =
   Some (mkPack (app unit_ring_levels
                   [[positionBubble (placed (- sqrt 3) (-1) 7) (placed 0 (-2) 2)
                                    (coerceRadius (null_point 8))]]) 2 0 0)) /\
  (at2 (stage2_levels (placed 0 (-2) 2) (placed 0 (-2) 9)) 2 1 =
     Some (placed (- sqrt 3) (-1) 7) /\
   at2 (stage2_levels (placed 0 (-2) 2) (placed 0 (-2) 9)) (2 - 1) 0 = Some (placed 0 0 0) /\
   at2 (stage2_levels (placed 0 (-2) 2) (placed 0 (-2) 9)) 2 0 = Some (placed 0 (-2) 2) /\
   List.length (stage2_levels (placed 0 (-2) 2) (placed 0 (-2) 9)) = S 2 /\
   at2 (stage2_levels (placed 0 (-2) 2) (placed 0 (-2) 9)) (2 - 1) 1 =
     Some (placed 0 (-2) 9) /\
   checkOverlap (positionBubble (placed (- sqrt 3) (-1) 7) (placed 0 0 0)
                                (coerceRadius (null_point 8))) (placed 0 (-2) 2) = true /\
   checkOverlap (positionBubble (placed (- sqrt 3) (-1) 7) (placed 0 0 0)
                                (coerceRadius (null_point 8))) (placed 0 (-2) 9) = true /\
   placeStep (mkPack (stage2_levels (placed 0 (-2) 2) (placed 0 (-2) 9)) 2 1 0)
             (coerceRadius (null_point 8)) =
   Some (mkPack (app (stage2_levels (placed 0 (-2) 2) (placed 0 (-2) 9))
                   [[positionBubble (placed (- sqrt 3) (-1) 7) (placed 0 (-2) 2)
                                    (coerceRadius (null_point 8))]]) 3 0 0)) /\
  (at2 (stage2_levels (placed 0 10 20) (placed 0 (-2) 9)) 2 1 =
     Some (placed (- sqrt 3) (-1) 7) /\
   at2 (stage2_levels (placed 0 10 20) (placed 0 (-2) 9)) (2 - 1) 0 = Some (placed 0 0 0) /\
   at2 (stage2_levels (placed 0 10 20) (placed 0 (-2) 9)) 2 0 = Some (placed 0 10 20) /\
   List.length (stage2_levels (placed 0 10 20) (placed 0 (-2) 9)) = S 2 /\
   at2 (stage2_levels (placed 0 10 20) (placed 0 (-2) 9)) (2 - 1) 1 =
     Some (placed 0 (-2) 9) /\
   checkOverlap (positionBubble (placed (- sqrt 3) (-1) 7) (placed 0 0 0)
                                (coerceRadius (null_point 8))) (placed 0 10 20) = false /\
   checkOverlap (positionBubble (placed (- sqrt 3) (-1) 7) (placed 0 0 0)
                                (coerceRadius (null_point 8))) (placed 0 (-2) 9) = true /\
   exists bp',
     push_at (stage2_levels (placed 0 10 20) (placed 0 (-2) 9)) 2
             (positionBubble (placed (- sqrt 3) (-1) 7) (placed 0 (-2) 9)
                             (coerceRadius (null_point 8))) = Some bp' /\
     placeStep (mkPack (stage2_levels (placed 0 10 20) (placed 0 (-2) 9)) 2 1 0)
               (coerceRadius (null_point 8)) = Some (mkPack bp' 2 2 1)) /\
  ((at2 [[placed 0 0 0]; [placed 0 (-2) 2]] 1 0 = Some (placed 0 (-2) 2) /\
    at2 [[placed 0 0 0]; [placed 0 (-2) 2]] (1 - 1) 0 = Some (placed 0 0 0) /\
    at2 [[placed 0 0 0]; [placed 0 (-2) 2]] 1 0 = Some (placed 0 (-2) 2) /\
    List.length [[placed 0 0 0]; [placed 0 (-2) 2]] = S 1) /\
   exists bp',
     placeStep (mkPack [[placed 0 0 0]; [placed 0 (-2) 2]] 1 0 0) (coerceRadius (null_point 3)) =
     Some (mkPack bp' 1 1 0)).
Proof.
  assert (Of : checkOverlap (positionBubble (placed (- sqrt 3) (-1) 7) (placed 0 0 0)
                 (coerceRadius (null_point 8))) (placed 0 (-2) 2) = true)
    by (rewrite ring_step8; apply same_centre_overlap).
  assert (Onp : checkOverlap (positionBubble (placed (- sqrt 3) (-1) 7) (placed 0 0 0)
                 (coerceRadius (null_point 8))) (placed 0 (-2) 9) = true)
    by (rewrite ring_step8; apply same_centre_overlap).
  assert (Ofar : checkOverlap (positionBubble (placed (- sqrt 3) (-1) 7) (placed 0 0 0)
                 (coerceRadius (null_point 8))) (placed 0 10 20) = false)
    by (rewrite ring_step8; exact far_from_ring_step8).
  split; [|split; [|split]].
  - destruct (placeStep_cases (mkPack unit_ring_levels 1 5 0) (coerceRadius (null_point 8))
                (placed (- sqrt 3) (-1) 7) (placed 0 0 0) (placed 0 (-2) 2)
                eq_refl eq_refl eq_refl eq_refl) as [HA _].
    do 5 (split; [first [reflexivity | exact Of]|]). exact (HA Of).
  - destruct (placeStep_cases (mkPack (stage2_levels (placed 0 (-2) 2) (placed 0 (-2) 9)) 2 1 0)
                (coerceRadius (null_point 8))
                (placed (- sqrt 3) (-1) 7) (placed 0 0 0) (placed 0 (-2) 2)
                eq_refl eq_refl eq_refl eq_refl) as [HB _].
    do 7 (split; [first [reflexivity | exact Of | exact Onp]|]). exact (HB Of).
  - destruct (placeStep_cases (mkPack (stage2_levels (placed 0 10 20) (placed 0 (-2) 9)) 2 1 0)
                (coerceRadius (null_point 8))
                (placed (- sqrt 3) (-1) 7) (placed 0 0 0) (placed 0 10 20)
                eq_refl eq_refl eq_refl eq_refl) as [_ [HC _]].
    do 7 (split; [first [reflexivity | exact Ofar | exact Onp]|]).
    exact (HC (placed 0 (-2) 9) Ofar ltac:(cbn [stage]; lia) eq_refl Onp).
  - split; [repeat split|].
    destruct (placeStep_cases (mkPack [[placed 0 0 0]; [placed 0 (-2) 2]] 1 0 0)
                (coerceRadius (null_point 3)) (placed 0 (-2) 2) (placed 0 0 0) (placed 0 (-2) 2)
                eq_refl eq_refl eq_refl eq_refl) as [_ [_ H3]].
    destruct H3 as [bp' [_ E]].
    + cbn [bubblePos stage pj pk]. rewrite ring_step3. exact tangent_after_ring_step3.
    + cbn [stage]. intros [Hs _]. lia.
    + exists bp'. exact E.
Defined.


(** Both sizes 2, the value 5. *)
Lemma radius_defined_witness :
  (2 <= 2 /\ 5 <> 0 /\ 2 <= 5) /\
  radiusOf true (Fin 2) (Fin 2) (Fin (2 - 2)) (JNum (Fin 5)) =
  JNum (Fin (Rceil (2 + sqrt 0.5 * (2 - 2)) / 2)).
Proof.
  split; [split; [lra|split; [intro; lra|lra]]|].
  exact (proj2 (radius_defined true 2 2) ltac:(lra) 5 ltac:(intro; lra) ltac:(lra)).
Defined.

(** The values [0, 5, 0, ..., 0] with both sizes 2: [getRadius] writes the
    radii [null, 1, null, ...] over the values, and [placeBubbles] sorts the
    array in place, the unit bubble first, and writes the radius 1 of the
    [|| 1] over the [null] radii from the third entry on. *)
Lemma allDataPoints_mutated_witness :
  exists s' out,
    allDataPoints shuffled_values_store =
      zero_point 1 :: mkBubble JNull JNull (JNum (Fin 5)) 0 0 ::
      map zero_point [2;3;4;5;6;7;8]%nat /\
    allDataPoints (getRadius shuffled_values_store) =
      null_point 1 :: mkBubble JNull JNull (JNum (Fin 1)) 0 0 ::
      map null_point [2;3;4;5;6;7;8]%nat /\
    Forall (fun p => br p = Fin (realOf (br p))) (allDataPoints (getRadius shuffled_values_store)) /\
    placeBubbles 1 AllDataPoints (getRadius shuffled_values_store) = Some (s', out) /\
    allDataPoints s' =
      mkBubble JNull JNull (JNum (Fin 1)) 0 0 :: null_point 1 ::
      map unit_point [2;3;4;5;6;7;8]%nat.
Proof.
  destruct shuffled_run as [s' E].
  assert (Hf : Forall (fun p => br p = Fin (realOf (br p)))
                      (allDataPoints (getRadius shuffled_values_store)))
    by (rewrite getRadius_shuffled; repeat constructor).
  exists s', (map CBubble (rawPositions s')).
  split; [reflexivity|]. split; [exact getRadius_shuffled|]. split; [exact Hf|].
  split; [exact E|].
  destruct (proj2 (proj2 allDataPoints_mutated) 1%nat (getRadius shuffled_values_store) s' _
              Hf E) as [_ [_ H]].
  rewrite H, getRadius_shuffled, sortDesc_shuffled. reflexivity.
Defined.

(** * Further properties of the code *)

(** ** The packing loop *)

Lemma nth_error_app_last {A} (pre : list A) (x : A) :
  nth_error (app pre [x]) (List.length pre) = Some x.
Proof. induction pre as [|a rest IH]; [reflexivity | exact IH]. Qed.

Lemma push_at_app_last (pre : list (list bubble)) (last : list bubble) (x : bubble) :
  push_at (app pre [last]) (List.length pre) x = Some (app pre [app last [x]]).
Proof. induction pre as [|r rest IH]; [reflexivity|]. simpl. rewrite IH. reflexivity. Qed.

Lemma at2_last pre last i : at2 (app pre [last]) (List.length pre) i = nth_error last i.
Proof. unfold at2. rewrite nth_error_app_last. reflexivity. Qed.

Lemma at2_pre pre last n i :
  (n < List.length pre)%nat -> at2 (app pre [last]) n i = nth_error (nth n pre []) i.
Proof.
  intro H. unfold at2. rewrite nth_error_app1 by exact H.
  rewrite (nth_error_nth' pre [] H). reflexivity.
Qed.

Lemma nth_error_lt {A} (l : list A) i :
  (i < List.length l)%nat -> exists x, nth_error l i = Some x.
Proof.
  intro H. destruct (nth_error l i) eqn:E; [eauto|].
  apply nth_error_None in E. lia.
Qed.

Lemma concat_app_last (pre : list (list bubble)) last y :
  List.concat (app pre [app last [y]]) = app (List.concat (app pre [last])) [y].
Proof. rewrite !concat_app. simpl. rewrite !app_nil_r, app_assoc. reflexivity. Qed.

Lemma push_current pre last j k' y :
  (1 <= List.length pre)%nat -> (j < List.length last)%nat ->
  (k' < List.length (nth (List.length pre - 1) pre []))%nat ->
  loopInv (mkPack (app pre [app last [y]]) (List.length pre) (S j) k').
Proof.
  intros H1 Hj Hk. exists pre, (app last [y]). cbn.
  rewrite length_app. simpl. repeat split; lia.
Qed.

Lemma push_next pre last y :
  (1 <= List.length pre)%nat -> (0 < List.length last)%nat ->
  loopInv (mkPack (app (app pre [last]) [app [] [y]]) (S (List.length pre)) 0 0).
Proof.
  intros H1 H0. exists (app pre [last]), [y]. cbn.
  rewrite length_app. simpl. repeat split; try lia.
  match goal with |- context [nth ?n (app pre [last]) []] =>
    replace n with (List.length pre) by lia end.
  rewrite nth_middle. exact H0.
Qed.

Lemma placeStep_inv ps item : loopInv ps ->
  exists ps' x, placeStep ps item = Some ps' /\ loopInv ps' /\
    List.concat (bubblePos ps') = app (List.concat (bubblePos ps)) [x] /\ ids x = ids item.
Proof.
  destruct ps as [bp st j k].
  intros (pre & last & Hbp & Hlen & Hst & Hj & Hk); cbn [bubblePos stage pj pk] in *.
  subst bp st.
  destruct (nth_error_lt last j Hj) as [lastB HlB].
  destruct (nth_error_lt _ k Hk) as [pivot Hpv].
  destruct (nth_error_lt last 0 ltac:(lia)) as [first Hfi].
  unfold placeStep; cbn [bubblePos stage pj pk].
  rewrite at2_last, HlB. cbn [obind].
  rewrite at2_pre by lia. rewrite Hpv. cbn [obind].
  rewrite at2_last, Hfi. cbn [obind].
  destruct (checkOverlap (positionBubble lastB pivot item) first).
  - replace (S (List.length pre)) with (List.length (app pre [last]))
      by (rewrite length_app; simpl; lia).
    rewrite push_at_app_last. cbn [obind].
    eexists _, _. split; [reflexivity|]. split.
    + rewrite length_app. simpl. replace (List.length pre + 1)%nat with (S (List.length pre)) by lia.
      apply push_next; lia.
    + split; [cbn [bubblePos]; rewrite !concat_app; simpl; rewrite !app_nil_r; reflexivity
             | reflexivity].
  - destruct (Nat.ltb 1 (List.length pre)) eqn:Hlt.
    + rewrite at2_pre by lia.
      destruct (nth_error (nth (List.length pre - 1) pre []) (S k)) as [np|] eqn:Enp.
      * assert (HSk : (S k < List.length (nth (List.length pre - 1) pre []))%nat)
          by (apply nth_error_Some; rewrite Enp; discriminate).
        destruct (checkOverlap (positionBubble lastB pivot item) np);
          rewrite push_at_app_last; cbn [obind];
          (eexists _, _; split; [reflexivity|]; split;
           [apply push_current; lia | split; [apply concat_app_last | reflexivity]]).
      * rewrite push_at_app_last; cbn [obind].
        eexists _, _; split; [reflexivity|]; split;
          [apply push_current; lia | split; [apply concat_app_last | reflexivity]].
    + rewrite push_at_app_last; cbn [obind].
      eexists _, _; split; [reflexivity|]; split;
        [apply push_current; lia | split; [apply concat_app_last | reflexivity]].
Qed.

Lemma placeLoop_inv items : forall ps, loopInv ps ->
  exists ps' xs, placeLoop ps items = Some (ps', map coerceRadius items) /\ loopInv ps' /\
    List.concat (bubblePos ps') = app (List.concat (bubblePos ps)) xs /\
    map ids xs = map ids items.
Proof.
  induction items as [|it rest IH]; intros ps Hinv.
  - exists ps, []. rewrite app_nil_r. auto.
  - destruct (placeStep_inv ps (coerceRadius it) Hinv) as (ps1 & x & E & Hi & Hc & Hid).
    destruct (IH ps1 Hi) as (ps2 & xs & E2 & Hi2 & Hc2 & Hid2).
    exists ps2, (x :: xs). simpl. rewrite E. cbn [obind]. rewrite E2. cbn [obind fst snd].
    split; [reflexivity|]. split; [exact Hi2|]. split.
    + rewrite Hc2, Hc, <- app_assoc. reflexivity.
    + simpl. rewrite Hid, Hid2. reflexivity.
Qed.

Lemma initPack_inv b0 b1 : loopInv (initPack b0 b1).
Proof. exists [[seed0 b0]], [seed1 b0 b1]. cbn. repeat split; lia. Qed.

(** The loop of [placeBubbles] never reads an [undefined] entry of
    [bubblePos] nor pushes onto a missing level: started from the two seeds
    it always finishes, leaves each item with its radius through [|| 1], and
    places every item exactly once, in the sorted order, after the two seeds. *)
Theorem placeLoop_places_all (b0 b1 : bubble) (rest : list bubble) :
  exists ps xs, placeLoop (initPack b0 b1) rest = Some (ps, map coerceRadius rest) /\
    List.concat (bubblePos ps) = seed0 b0 :: seed1 b0 b1 :: xs /\
    map ids xs = map ids rest.
Proof.
  destruct (placeLoop_inv rest (initPack b0 b1) (initPack_inv b0 b1))
    as (ps & xs & E & _ & Hc & Hid).
  exists ps, xs. split; [exact E|]. split; [exact Hc | exact Hid].
Qed.

(** ** What a finished layout looks like *)

Lemma resizeRadius_inv place s s3 : resizeRadius place s = Some s3 ->
  (nlt (Fin 1e-10) (nabs (nsub (smallerDimension s (bboxOf (rawPositions s))) (Fin 1))) = true /\
   place (set_rawPositions
            (map (scaleRadius (smallerDimension s (bboxOf (rawPositions s)))) (rawPositions s)) s)
     = Some s3) \/
  (nlt (Fin 1e-10) (nabs (nsub (smallerDimension s (bboxOf (rawPositions s))) (Fin 1))) = false /\
   s3 = set_diffs (centreX s (bboxOf (rawPositions s))) (centreY s (bboxOf (rawPositions s))) s).
Proof.
  unfold resizeRadius, smallerDimension, centreX, centreY.
  destruct (bboxOf (rawPositions s)) as [[[minX maxX] minY] maxY].
  destruct (nlt _ _); intro H; [left | right]; auto.
  split; [reflexivity | congruence].
Qed.

(** Everything [placeBubbles] guarantees about a run that returns, for an
    array of at least two bubbles. *)
Lemma placeBubbles_result (fuel : nat) : forall a s s' out,
  placeBubbles fuel a s = Some (s', out) -> (2 <= List.length (getArr a s))%nat ->
  out = map CBubble (rawPositions s') /\
  rawPositions s' = List.concat (stages s') /\
  plotLeft s' = plotLeft s /\ plotTop s' = plotTop s /\
  plotWidth s' = plotWidth s /\ plotHeight s' = plotHeight s /\
  Permutation (map ids (rawPositions s')) (map ids (getArr a s)) /\
  (exists p0 p1 xs, rawPositions s' = p0 :: p1 :: xs /\
     bx p0 = Fin 0 /\ by' p0 = Fin 0 /\
     bx p1 = Fin 0 /\ by' p1 = nsub (nsub (Fin 0) (br p1)) (br p0)) /\
  nlt (Fin 1e-10) (nabs (nsub (smallerDimension s' (bboxOf (rawPositions s'))) (Fin 1)))
    = false /\
  diffX s' = Some (centreX s' (bboxOf (rawPositions s'))) /\
  diffY s' = Some (centreY s' (bboxOf (rawPositions s'))).
Proof.
  induction fuel as [|fuel IH]; intros a s s' out H Hlen; [discriminate|].
  cbn [placeBubbles] in H.
  pose proof (Permutation_length (sortDesc_perm (getArr a s))) as Hl.
  pose proof (sortDesc_perm (getArr a s)) as Hp.
  destruct (sortDesc (getArr a s)) as [|b0 [|b1 rest]] eqn:Hs;
    [simpl in Hl; lia | simpl in Hl; lia |].
  destruct (placeLoop_inv rest (initPack b0 b1) (initPack_inv b0 b1))
    as (ps & xs & E & _ & Hc & Hid).
  rewrite E in H. cbn [obind fst snd] in H.
  set (s2 := set_layout (bubblePos ps) (List.concat (bubblePos ps))
               (setArr a (b0 :: b1 :: map coerceRadius rest) (setArr a (b0 :: b1 :: rest) s))) in H.
  destruct (resizeRadius _ s2) as [s3|] eqn:Er; [|discriminate].
  cbn [obind] in H. injection H as <- <-.
  assert (Hraw2 : rawPositions s2 = seed0 b0 :: seed1 b0 b1 :: xs)
    by (subst s2; destruct a; exact Hc).
  assert (Hperm2 : Permutation (map ids (rawPositions s2)) (map ids (getArr a s))).
  { rewrite Hraw2. simpl. rewrite Hid.
    change (ids (seed0 b0)) with (ids b0). change (ids (seed1 b0 b1)) with (ids b1).
    change (ids b0 :: ids b1 :: map ids rest) with (map ids (b0 :: b1 :: rest)).
    apply Permutation_map. exact Hp. }
  assert (Hplot : plotLeft s2 = plotLeft s /\ plotTop s2 = plotTop s /\
                  plotWidth s2 = plotWidth s /\ plotHeight s2 = plotHeight s)
    by (subst s2; destruct a; repeat split).
  apply resizeRadius_inv in Er. destruct Er as [[_ Hplace] | [Hsmall ->]].
  - set (s2' := set_rawPositions _ s2) in Hplace.
    destruct (placeBubbles fuel RawPositions s2') as [[s3' out']|] eqn:Ep; [|discriminate].
    injection Hplace as <-.
    assert (Hlen2 : (2 <= List.length (getArr RawPositions s2'))%nat)
      by (unfold s2'; cbn [getArr set_rawPositions set_layout rawPositions];
          rewrite length_map, Hraw2; simpl; lia).
    destruct (IH _ _ _ _ Ep Hlen2)
      as (_ & Hst & Hl1 & Ht1 & Hw1 & Hh1 & Hpm & Hseed & Hn & Hdx & Hdy).
    destruct Hplot as (Hl2 & Ht2 & Hw2 & Hh2).
    split; [reflexivity|]. split; [exact Hst|].
    split; [rewrite Hl1; exact Hl2|]. split; [rewrite Ht1; exact Ht2|].
    split; [rewrite Hw1; exact Hw2|]. split; [rewrite Hh1; exact Hh2|].
    split; [|auto].
    rewrite Hpm. subst s2'. cbn [getArr set_rawPositions set_layout rawPositions].
    rewrite map_map. exact Hperm2.
  - destruct Hplot as (Hl2 & Ht2 & Hw2 & Hh2).
    split; [reflexivity|]. split; [subst s2; destruct a; reflexivity|].
    cbn [plotLeft plotTop plotWidth plotHeight set_diffs].
    do 4 (split; [assumption|]).
    split; [exact Hperm2|]. split.
    + exists (seed0 b0), (seed1 b0 b1), xs. cbn [set_diffs rawPositions].
      split; [exact Hraw2|]. repeat split.
    + split; [exact Hsmall|]. split; reflexivity.
Qed.

(** ** getRadius: the sizes and the radius formula *)

Lemma ends_with_percent_cons (c : ascii) (s : string) :
  Ascii.eqb c "%"%char = false -> ends_with_percent s = false ->
  ends_with_percent (String c s) = false.
Proof. intros Hc Hs. destruct s; simpl; auto. Qed.

Lemma digit_not_percent (m : N) : (m < 10)%N -> Ascii.eqb (ascii_of_N (48 + m)) "%"%char = false.
Proof.
  intros H. destruct (Ascii.eqb_spec (ascii_of_N (48 + m)) "%"%char) as [E|E]; [|reflexivity].
  exfalso. apply (f_equal N_of_ascii) in E. rewrite N_ascii_embedding in E by lia.
  change (N_of_ascii "%"%char) with 37%N in E. lia.
Qed.

Lemma nat_digits_no_percent (fuel : nat) : forall n acc,
  ends_with_percent acc = false -> ends_with_percent (nat_digits fuel n acc) = false.
Proof.
  induction fuel as [|fuel IH]; intros n acc H; [exact H|].
  cbn [nat_digits].
  assert (Hd : ends_with_percent (String (ascii_of_N (48 + N.modulo n 10)) acc) = false)
    by (apply ends_with_percent_cons; [apply digit_not_percent, N.mod_lt; discriminate | exact H]).
  destruct (n <? 10)%N; [exact Hd | apply IH; exact Hd].
Qed.

Lemma parsed_no_percent (p : option Z) : ends_with_percent (parsed_to_string p) = false.
Proof.
  destruct p as [z|]; [|reflexivity].
  unfold parsed_to_string, Z_to_string.
  destruct (z <? 0)%Z;
    [apply ends_with_percent_cons; [reflexivity|] |]; apply nat_digits_no_percent; reflexivity.
Qed.

Lemma resolveSize_plain (smallestSize : num) (prop : string) :
  resolveSize smallestSize prop = parsed_num (parseInt10 prop).
Proof. unfold resolveSize. rewrite parsed_no_percent. reflexivity. Qed.

(** [resolveSize] tests for a trailing [%] on the number [parseInt] returned,
    never on the option string, so the test always fails: a size option is
    read as a plain number (its leading integer, NaN without one) and never
    scaled by the plot area, whatever [smallestSize] is. *)
Theorem resolveSize_ignores_percent (smallestSize : num) (prop : string) :
  resolveSize smallestSize prop = parsed_num (parseInt10 prop).
Proof. exact (resolveSize_plain smallestSize prop). Qed.

(** With the default options of the series type ([minPointSize: '10%'],
    [maxPointSize: '100%'], [sizeBy: 'radius']), [getRadius] sets
    [minRadius = 10] and [maxRadius = 100] whatever the size of the plot
    area, and sizes by area (only ['width'] sizes by width). *)
Theorem getRadius_defaults (s : store) (Hopt : options s = packedbubble_defaults) :
  minRadius (getRadius s) = Some (Fin 10) /\ maxRadius (getRadius s) = Some (Fin 100) /\
  allDataPoints (getRadius s) =
    map (fun p => set_radius (radiusOf true (Fin 10) (Fin 100) (Fin (100 - 10)) (bub_r p)) p)
        (allDataPoints s).
Proof.
  unfold getRadius. rewrite Hopt. cbn [minPointSize maxPointSize sizeBy packedbubble_defaults].
  rewrite !resolveSize_plain. repeat split.
Qed.

(** Above [minSize] the radius is monotone in the value: a larger value never
    gets a smaller radius, whatever the two sizes and the sizing mode. *)
Theorem radius_monotone_above_min (sizeByArea : bool) (minSize maxSize v1 v2 : R)
    (H1 : v1 <> 0) (H2 : v2 <> 0) (Hmin : minSize <= v1) (H12 : v1 <= v2) :
  exists r1 r2,
    radiusOf sizeByArea (Fin minSize) (Fin maxSize) (Fin (maxSize - minSize)) (JNum (Fin v1))
      = JNum (Fin r1) /\
    radiusOf sizeByArea (Fin minSize) (Fin maxSize) (Fin (maxSize - minSize)) (JNum (Fin v2))
      = JNum (Fin r2) /\
    r1 <= r2.
Proof.
  rewrite !radiusOf_Fin by assumption. do 2 eexists. split; [reflexivity|]. split; [reflexivity|].
  unfold radiusR.
  destruct (Rlt_dec v1 minSize) as [Hc|_]; [lra|].
  destruct (Rlt_dec v2 minSize) as [Hc|_]; [lra|].
  destruct (Rlt_dec 0 (maxSize - minSize)) as [Hd|Hd]; [|lra].
  assert (Hq : (v1 - minSize) / (maxSize - minSize) <= (v2 - minSize) / (maxSize - minSize)).
  { unfold Rdiv. apply Rmult_le_compat_r; [left; apply Rinv_0_lt_compat; lra | lra]. }
  assert (Hq0 : 0 <= (v1 - minSize) / (maxSize - minSize)).
  { unfold Rdiv. apply Rmult_le_pos; [lra | left; apply Rinv_0_lt_compat; lra]. }
  destruct (Rle_dec 0 ((v1 - minSize) / (maxSize - minSize))) as [_|Hc]; [|lra].
  destruct (Rle_dec 0 ((v2 - minSize) / (maxSize - minSize))) as [_|Hc]; [|lra].
  unfold Rdiv at 3 6. apply Rmult_le_compat_r; [lra|]. apply Rceil_mono.
  apply Rplus_le_compat_l. apply Rmult_le_compat_r; [lra|].
  destruct sizeByArea; cbn [andb]; [apply sqrt_le_1_alt|]; exact Hq.
Qed.

(** There is no upper clamp: with [minSize < maxSize], a non-zero value
    above [maxSize] gets a radius above [maxSize / 2], by width as by area. *)
Theorem radius_above_max (sizeByArea : bool) (minSize maxSize v : R)
    (H0 : v <> 0) (Hs : minSize < maxSize) (Hv : maxSize < v) :
  exists r,
    radiusOf sizeByArea (Fin minSize) (Fin maxSize) (Fin (maxSize - minSize)) (JNum (Fin v))
      = JNum (Fin r) /\ maxSize / 2 < r.
Proof.
  rewrite radiusOf_Fin by exact H0. eexists. split; [reflexivity|].
  unfold radiusR.
  destruct (Rlt_dec v minSize) as [Hc|_]; [lra|].
  destruct (Rlt_dec 0 (maxSize - minSize)) as [_|Hc]; [|lra].
  assert (Hq : 1 < (v - minSize) / (maxSize - minSize)).
  { apply (Rmult_lt_reg_r (maxSize - minSize)); [lra|].
    unfold Rdiv. rewrite Rmult_assoc, Rinv_l by lra. lra. }
  destruct (Rle_dec 0 ((v - minSize) / (maxSize - minSize))) as [_|Hc]; [|lra].
  set (q := (v - minSize) / (maxSize - minSize)) in *.
  assert (Hp : 1 < (if andb sizeByArea true then sqrt q else q)).
  { destruct sizeByArea; cbn [andb]; [|exact Hq].
    rewrite <- sqrt_1. apply sqrt_lt_1_alt. lra. }
  pose proof (Rceil_bounds (minSize + (if andb sizeByArea true then sqrt q else q) *
                                      (maxSize - minSize))) as [Hc _].
  assert (maxSize < minSize + (if andb sizeByArea true then sqrt q else q) *
                              (maxSize - minSize)) by nra.
  lra.
Qed.

(** ** accumulateAllPoints *)

Lemma pushYData_in (ys : list jsval) (idx : nat) : forall j0 e,
  In e (pushYData ys idx j0) <->
  exists j v, nth_error ys j = Some v /\ e = mkBubble JNull JNull v idx (j0 + j).
Proof.
  induction ys as [|y rest IH]; intros j0 e; cbn [pushYData In].
  - split; [contradiction|]. intros (j & v & H & _). destruct j; discriminate.
  - split.
    + intros [<- | H].
      * exists 0%nat, y. split; [reflexivity|]. rewrite Nat.add_0_r. reflexivity.
      * apply IH in H. destruct H as (j & v & Hn & ->).
        exists (S j), v. split; [exact Hn|]. f_equal. lia.
    + intros ([|j] & v & Hn & ->); cbn [nth_error] in Hn.
      * left. injection Hn as <-. rewrite Nat.add_0_r. reflexivity.
      * right. apply IH. exists j, v. split; [exact Hn|]. f_equal. lia.
Qed.

Lemma pushYData_length (ys : list jsval) (idx j0 : nat) :
  List.length (pushYData ys idx j0) = List.length ys.
Proof. revert j0. induction ys as [|y rest IH]; intros j0; simpl; [reflexivity|]. rewrite IH. reflexivity. Qed.

Lemma accumulateAllPoints_in (chartSeries : list series) (e : bubble) :
  In e (accumulateAllPoints chartSeries) <->
  exists ser j v, In ser chartSeries /\ visible ser = true /\
    nth_error (processedYData ser) j = Some v /\
    e = mkBubble JNull JNull v (sindex ser) j.
Proof.
  induction chartSeries as [|ser rest IH]; cbn [accumulateAllPoints In].
  - split; [contradiction|]. intros (? & ? & ? & [] & _).
  - rewrite in_app_iff, IH. split.
    + intros [H | (s' & j & v & Hin & Hv & Hn & ->)].
      * destruct (visible ser) eqn:Hv; [|contradiction].
        apply pushYData_in in H. destruct H as (j & v & Hn & ->).
        exists ser, j, v. auto.
      * exists s', j, v. auto.
    + intros (s' & j & v & [<- | Hin] & Hv & Hn & ->).
      * left. rewrite Hv. apply pushYData_in. exists j, v. auto.
      * right. exists s', j, v. auto.
Qed.

Lemma accumulateAllPoints_length (chartSeries : list series) :
  List.length (accumulateAllPoints chartSeries) =
    list_sum (map (fun ser => if visible ser then List.length (processedYData ser) else 0%nat)
                  chartSeries).
Proof.
  induction chartSeries as [|ser rest IH]; [reflexivity|].
  cbn [accumulateAllPoints map list_sum fold_right]. rewrite length_app, IH.
  destruct (visible ser); [rewrite pushYData_length|]; reflexivity.
Qed.

(** [accumulateAllPoints] holds one entry per value of each visible series
    and nothing else: the entry for value [j] of a series has a [null]
    position, that value, and the identity [[series.index, j]]; the
    entries of hidden series are left out. *)
Theorem accumulateAllPoints_entries (chartSeries : list series) (e : bubble) :
  (In e (accumulateAllPoints chartSeries) <->
   exists ser j v, In ser chartSeries /\ visible ser = true /\
     nth_error (processedYData ser) j = Some v /\
     e = mkBubble JNull JNull v (sindex ser) j) /\
  List.length (accumulateAllPoints chartSeries) =
    list_sum (map (fun ser => if visible ser then List.length (processedYData ser) else 0%nat)
                  chartSeries).
Proof.
  split; [apply accumulateAllPoints_in | apply accumulateAllPoints_length].
Qed.

Lemma pushYData_ids_nodup (ys : list jsval) (idx : nat) : forall j0,
  NoDup (map ids (pushYData ys idx j0)) /\
  (forall x, In x (map ids (pushYData ys idx j0)) -> fst x = idx /\ (j0 <= snd x)%nat).
Proof.
  induction ys as [|y rest IH]; intros j0; cbn [pushYData map].
  - split; [constructor | contradiction].
  - destruct (IH (S j0)) as [Hnd Hin]. split.
    + constructor; [|exact Hnd]. intro H. apply Hin in H. cbn in H. lia.
    + intros x [<- | H]; [cbn; lia|]. apply Hin in H. lia.
Qed.

Lemma accumulateAllPoints_ids_nodup (chartSeries : list series) :
  NoDup (map sindex chartSeries) ->
  NoDup (map ids (accumulateAllPoints chartSeries)) /\
  (forall x, In x (map ids (accumulateAllPoints chartSeries)) -> In (fst x) (map sindex chartSeries)).
Proof.
  induction chartSeries as [|ser rest IH]; intros Hnd; cbn [accumulateAllPoints map].
  - split; [constructor | contradiction].
  - inversion Hnd as [|? ? Hnot Hnd']; subst.
    destruct (IH Hnd') as [Hr Hrin].
    assert (Hp : NoDup (map ids (if visible ser then pushYData (processedYData ser) (sindex ser) 0 else [])) /\
                 forall x, In x (map ids (if visible ser then pushYData (processedYData ser) (sindex ser) 0 else [])) ->
                           fst x = sindex ser).
    { destruct (visible ser); [|split; [constructor | contradiction]].
      destruct (pushYData_ids_nodup (processedYData ser) (sindex ser) 0) as [H1 H2].
      split; [exact H1|]. intros x Hx. apply H2 in Hx. tauto. }
    destruct Hp as [Hp1 Hp2].
    rewrite map_app. split.
    + apply NoDup_app; [exact Hp1 | exact Hr |].
      intros x H1 H2. apply Hp2 in H1. apply Hrin in H2. rewrite H1 in H2. contradiction.
    + intros x Hx. apply in_app_iff in Hx. destruct Hx as [Hx | Hx].
      * left. symmetry. apply Hp2. exact Hx.
      * right. apply Hrin. exact Hx.
Qed.

(** ** translate: writing the positions into the points *)

Lemma set_nth_length {A} (l : list A) (j : nat) (x : A) :
  List.length (set_nth l j x) = List.length l.
Proof. revert j. induction l as [|y l IH]; intros [|j]; simpl; auto. Qed.

Lemma nth_error_set_nth_eq {A} (l : list A) (j : nat) (x : A) :
  (j < List.length l)%nat -> nth_error (set_nth l j x) j = Some x.
Proof.
  revert j. induction l as [|y l IH]; intros [|j] H; simpl in *; try lia; auto.
  apply IH. lia.
Qed.

Lemma nth_error_set_nth_neq {A} (l : list A) (j i : nat) (x : A) :
  i <> j -> nth_error (set_nth l j x) i = nth_error l i.
Proof.
  revert j i. induction l as [|y l IH]; intros [|j] [|i] H; simpl; auto; try lia.
Qed.

Lemma positionPoints_bubbles (index : nat) (L T : num) (dX dY : option num) :
  forall positions data data',
  positionPoints index L T dX dY (map CBubble positions) data = Some data' ->
  List.length data' = List.length data /\
  (forall j, (forall b, In b positions -> ids b <> (index, j)) -> nth_error data' j = nth_error data j) /\
  (NoDup (map ids positions) -> forall b j pt, In b positions -> ids b = (index, j) ->
     nth_error data j = Some pt -> nth_error data' j = Some (placePoint L T dX dY b pt)).
Proof.
  induction positions as [|b rest IH]; intros data data' H; cbn [map positionPoints] in H.
  - injection H as <-. split; [reflexivity|]. split; [reflexivity|]. intros _ b j pt [].
  - destruct (Nat.eqb_spec (bub_series b) index) as [Hs|Hs].
    + destruct (nth_error data (bub_point b)) as [pt0|] eqn:E; [|discriminate].
      assert (Hlt : (bub_point b < List.length data)%nat)
        by (apply nth_error_Some; rewrite E; discriminate).
      destruct (IH _ _ H) as (Hlen & Hun & Hpl). rewrite set_nth_length in Hlen.
      split; [exact Hlen|]. split.
      * intros j Hj. rewrite Hun by (intros b' Hb'; apply Hj; right; exact Hb').
        apply nth_error_set_nth_neq. intro Hjb. apply (Hj b (or_introl eq_refl)).
        unfold ids. rewrite Hs, Hjb. reflexivity.
      * intros Hnd b' j pt Hin Hid Hpt. cbn [map] in Hnd.
        apply NoDup_cons_iff in Hnd. destruct Hnd as [Hnot Hnd'].
        unfold ids in Hid. injection Hid as Hs' Hj'.
        destruct Hin as [<- | Hin].
        -- rewrite Hun.
           ++ rewrite <- Hj', E in Hpt. injection Hpt as <-. rewrite <- Hj'.
              apply nth_error_set_nth_eq. exact Hlt.
           ++ intros b'' Hb'' Heq. apply Hnot.
              replace (ids b) with (ids b'') by (rewrite Heq; unfold ids; congruence).
              apply in_map. exact Hb''.
        -- apply Hpl; [exact Hnd' | exact Hin | unfold ids; rewrite Hs', Hj'; reflexivity |].
           rewrite nth_error_set_nth_neq; [exact Hpt|].
           intro Hjb. apply Hnot.
           replace (ids b) with (ids b') by (unfold ids; congruence).
           apply in_map. exact Hin.
    + destruct (IH _ _ H) as (Hlen & Hun & Hpl).
      split; [exact Hlen|]. split.
      * intros j Hj. apply Hun. intros b' Hb'. apply Hj. right. exact Hb'.
      * intros Hnd b' j pt [<- | Hin] Hid Hpt.
        -- unfold ids in Hid. injection Hid as Hs' _. contradiction.
        -- inversion Hnd; subst. eapply Hpl; eauto.
Qed.

Lemma positionPoints_missing (index : nat) (L T : num) (dX dY : option num) :
  forall positions data b,
  In b positions -> bub_series b = index -> (List.length data <= bub_point b)%nat ->
  positionPoints index L T dX dY (map CBubble positions) data = None.
Proof.
  induction positions as [|b0 rest IH]; intros data b Hin Hs Hl; [destruct Hin|].
  cbn [map positionPoints].
  destruct Hin as [-> | Hin].
  - rewrite Hs, Nat.eqb_refl.
    destruct (nth_error data (bub_point b)) eqn:E; [|reflexivity].
    assert ((bub_point b < List.length data)%nat) by (apply nth_error_Some; rewrite E; discriminate).
    lia.
  - destruct (Nat.eqb (bub_series b0) index); [|eapply IH; eauto].
    destruct (nth_error data (bub_point b0)); [|reflexivity].
    eapply IH; eauto. rewrite set_nth_length. exact Hl.
Qed.

(** ** A two-bubble run *)

Lemma pair_sort : sortDesc [unit_point 0; unit_point 1] = [unit_point 0; unit_point 1].
Proof.
  unfold sortDesc. cbn [fold_left insertSorted].
  unfold sortCompare, br, unit_point; cbn [bub_r tonum].
  fin_simp. rewrite nlt_Fin_false by lra. reflexivity.
Qed.

Lemma bboxR_pair : bboxR two_points_layout = (-1, 1, -3, 1).
Proof.
  unfold bboxR, two_points_layout.
  cbn [fold_left bboxStepR realOf bx by' br tonum seed0 seed1 unit_point
       bub_x bub_y bub_r nsub nadd nneg].
  rewrite Rmin_left, Rmax_right, Rmin_right, Rmax_left by lra.
  repeat f_equal; ring.
Qed.

Lemma finite_pair : Forall finiteB two_points_layout.
Proof. repeat constructor. Qed.

Lemma bboxOf_pair : bboxOf two_points_layout = (Fin (-1), Fin 1, Fin (-3), Fin 1).
Proof.
  rewrite bboxOf_fin; [| discriminate | exact finite_pair].
  rewrite bboxR_pair. reflexivity.
Qed.

Lemma pair_run (s : store) :
  plotLeft s = Fin 0 -> plotTop s = Fin 0 -> plotWidth s = Fin 2 -> plotHeight s = Fin 4 ->
  allDataPoints s = [unit_point 0; unit_point 1] ->
  placeBubbles 1 AllDataPoints s = Some (pair_final s, map CBubble two_points_layout).
Proof.
  intros HL HT HW HH Hd.
  cbn [placeBubbles getArr]. rewrite Hd, pair_sort. cbv beta iota zeta.
  cbn [placeLoop obind fst snd initPack bubblePos].
  unfold resizeRadius. cbn [rawPositions set_layout setArr set_allDataPoints List.concat app].
  change [seed0 (unit_point 0); seed1 (unit_point 0) (unit_point 1)] with two_points_layout.
  rewrite bboxOf_pair.
  cbn [plotWidth plotHeight plotLeft plotTop set_layout set_allDataPoints].
  rewrite HL, HT, HW, HH.
  fin_simp. rewrite !ndiv_Fin by lra. rewrite nmin_FF. fin_simp.
  replace ((2 - 0) / (1 - -1)) with 1 by field. replace ((4 - 0) / (1 - -3)) with 1 by field.
  rewrite Rmin_left by lra. fin_simp. replace (1 - 1) with 0 by ring.
  rewrite Rabs_R0, nlt_Fin_false by lra.
  cbn [obind]. unfold pair_final, set_diffs, set_layout, set_allDataPoints.
  cbn [plotLeft plotTop plotWidth plotHeight options stages rawPositions diffX diffY
       minRadius maxRadius allDataPoints radii].
  rewrite HL, HT, HW, HH.
  repeat f_equal; field.
Qed.

(** The two values 5 with both sizes 2 get the radius 1. *)
Lemma getRadius_two_values :
  allDataPoints (getRadius (set_allDataPoints (accumulateAllPoints [two_values_series])
                                               translate_store)) =
  [unit_point 0; unit_point 1].
Proof.
  unfold getRadius. cbn -[radiusOf nmin resolveSize].
  rewrite !resolveSize_2. change (nsub (Fin 2) (Fin 2)) with (Fin (2 - 2)).
  rewrite radiusOf_Fin by lra. unfold radiusR.
  destruct (Rlt_dec 5 2) as [H|_]; [lra|].
  destruct (Rlt_dec 0 (2 - 2)) as [H|_]; [lra|].
  destruct (Rle_dec 0 0.5) as [_|H]; [|lra]. cbn [andb].
  replace (2 + sqrt 0.5 * (2 - 2)) with (IZR 2) by ring.
  rewrite Rceil_int. replace (IZR 2 / 2) with 1 by (simpl; field). reflexivity.
Qed.

Lemma translate_two_values (sc : list point -> list point) (data : list point) :
  translate sc 1 [two_values_series] 0 translate_store data =
  match positionPoints 0 (Fin 0) (Fin 0) (Some (Fin 1)) (Some (Fin 3))
          (map CBubble two_points_layout) (sc data) with
  | Some data' =>
      Translated (pair_final (getRadius (set_allDataPoints
                   (accumulateAllPoints [two_values_series]) translate_store))) data'
  | None => TypeError
  end.
Proof. unfold translate. rewrite pair_run; try reflexivity. apply getRadius_two_values. Qed.

(** ** placeBubbles and translate: helpers *)

Lemma getRadius_ids (s : store) :
  map ids (allDataPoints (getRadius s)) = map ids (allDataPoints s) /\
  map bub_x (allDataPoints (getRadius s)) = map bub_x (allDataPoints s).
Proof.
  unfold getRadius. cbn [allDataPoints set_sizes set_allDataPoints].
  rewrite !map_map. split; apply map_ext; reflexivity.
Qed.

Lemma placeBubbles_one (fuel : nat) (s : store) (p : bubble) :
  allDataPoints s = [p] ->
  placeBubbles (S fuel) AllDataPoints s =
  Some (set_allDataPoints [p] s,
        [CVal (JNum (Fin 0)); CVal (JNum (Fin 0)); CVal (bub_x p); CVal (bub_y p);
         CVal (bub_r p)]).
Proof. intros H. cbn [placeBubbles getArr]. rewrite H. reflexivity. Qed.

Lemma translate_one_point (sc : list point -> list point) (fuel : nat)
    (chartSeries : list series) (index : nat) (s : store) (data : list point) :
  List.length (accumulateAllPoints chartSeries) = 1%nat ->
  translate sc (S fuel) chartSeries index s data = TypeError.
Proof.
  intros H1. unfold translate.
  destruct (accumulateAllPoints chartSeries) as [|p [|]] eqn:E; cbn [List.length] in H1; try lia.
  assert (Hx : bub_x p = JNull).
  { assert (Hin : In p (accumulateAllPoints chartSeries)) by (rewrite E; left; reflexivity).
    apply accumulateAllPoints_in in Hin. destruct Hin as (ser & j & v & _ & _ & _ & ->).
    reflexivity. }
  destruct (getRadius_ids (set_allDataPoints [p] s)) as [Hid Hbx].
  cbn [allDataPoints set_allDataPoints map] in Hid, Hbx.
  destruct (allDataPoints (getRadius (set_allDataPoints [p] s))) as [|q [|]] eqn:Eq;
    try discriminate.
  cbn [map] in Hbx. injection Hbx as Hqx.
  rewrite (placeBubbles_one fuel _ q Eq).
  cbn [plotLeft plotTop diffX diffY set_allDataPoints positionPoints].
  rewrite Hqx, Hx. reflexivity.
Qed.

(** ** placeBubbles: the finished layout *)

(** [placeBubbles] on an array of at least two bubbles returns, when it
    returns, the array [chart.rawPositions], made of the levels of its last
    packing pass; it holds each bubble of the input exactly once (as
    [[series, point]] identities, the positions and radii being new). *)
Theorem placeBubbles_each_point_once (fuel : nat) (a : aref) (s s' : store) (out : list cell)
    (H : placeBubbles fuel a s = Some (s', out)) (H2 : (2 <= List.length (getArr a s))%nat) :
  out = map CBubble (rawPositions s') /\
  rawPositions s' = List.concat (stages s') /\
  Permutation (map ids (rawPositions s')) (map ids (getArr a s)).
Proof.
  destruct (placeBubbles_result fuel a s s' out H H2) as (Ho & Hc & _ & _ & _ & _ & Hp & _).
  repeat split; assumption.
Qed.

(** In a layout [placeBubbles] returns, the first bubble is centred at the
    origin and the second sits straight above it ([y = -r1 - r0]), each
    with its own radius: the two seeds of the last packing pass. *)
Theorem placeBubbles_seeds (fuel : nat) (a : aref) (s s' : store) (out : list cell)
    (H : placeBubbles fuel a s = Some (s', out)) (H2 : (2 <= List.length (getArr a s))%nat) :
  exists p0 p1 xs, rawPositions s' = p0 :: p1 :: xs /\
    bx p0 = Fin 0 /\ by' p0 = Fin 0 /\
    bx p1 = Fin 0 /\ by' p1 = nsub (nsub (Fin 0) (br p1)) (br p0).
Proof.
  destruct (placeBubbles_result fuel a s s' out H H2) as (_ & _ & _ & _ & _ & _ & _ & Hs & _).
  exact Hs.
Qed.

(** A layout [placeBubbles] returns always went through the centring branch
    of [resizeRadius]: the plot area is unchanged, the scale factor of the
    returned layout is within [1e-10] of 1 (NaN included, since the test is
    [1e-10 < |f - 1|]), and [diffX], [diffY] move the centre of its bounding
    box onto the centre of the plot area. *)
Theorem placeBubbles_centred (fuel : nat) (a : aref) (s s' : store) (out : list cell)
    (H : placeBubbles fuel a s = Some (s', out)) (H2 : (2 <= List.length (getArr a s))%nat) :
  plotLeft s' = plotLeft s /\ plotTop s' = plotTop s /\
  plotWidth s' = plotWidth s /\ plotHeight s' = plotHeight s /\
  nlt (Fin 1e-10) (nabs (nsub (smallerDimension s' (bboxOf (rawPositions s'))) (Fin 1)))
    = false /\
  diffX s' = Some (centreX s' (bboxOf (rawPositions s'))) /\
  diffY s' = Some (centreY s' (bboxOf (rawPositions s'))).
Proof.
  destruct (placeBubbles_result fuel a s s' out H H2)
    as (_ & _ & HL & HT & HW & HH & _ & _ & Hn & Hx & Hy).
  repeat split; assumption.
Qed.

(** For finite bubbles and a non-degenerate bounding box, a returned layout
    fits the usable area ([plotWidth - plotLeft] by [plotHeight - plotTop])
    up to a factor [1 - 1e-10] in both directions, and fills it up to
    [1 + 1e-10] in at least one. *)
Theorem placeBubbles_fits (fuel : nat) (a : aref) (s s' : store) (out : list cell)
    (W H L T minX maxX minY maxY : R)
    (Hr : placeBubbles fuel a s = Some (s', out)) (H2 : (2 <= List.length (getArr a s))%nat)
    (HW : plotWidth s = Fin W) (HH : plotHeight s = Fin H)
    (HL : plotLeft s = Fin L) (HT : plotTop s = Fin T)
    (Hfin : Forall finiteB (rawPositions s'))
    (Hb : bboxR (rawPositions s') = (minX, maxX, minY, maxY))
    (Hw : minX < maxX) (Hh : minY < maxY) :
  (1 - 1e-10) * (maxX - minX) <= W - L /\ (1 - 1e-10) * (maxY - minY) <= H - T /\
  (W - L <= (1 + 1e-10) * (maxX - minX) \/ H - T <= (1 + 1e-10) * (maxY - minY)).
Proof.
  destruct (placeBubbles_result fuel a s s' out Hr H2)
    as (_ & _ & HL' & HT' & HW' & HH' & _ & (p0 & p1 & xs & Hxs & _) & Hn & _).
  assert (Hne : rawPositions s' <> []) by (rewrite Hxs; discriminate).
  rewrite (bboxOf_fin _ Hne Hfin), Hb in Hn. unfold smallerDimension in Hn.
  rewrite HL', HT', HW', HH', HL, HT, HW, HH in Hn. revert Hn. fin_simp.
  rewrite !ndiv_Fin by lra. rewrite nmin_FF. fin_simp. intro Hn.
  set (qa := (W - L) / (maxX - minX)) in Hn.
  set (qb := (H - T) / (maxY - minY)) in Hn.
  assert (Ea : qa * (maxX - minX) = W - L) by (unfold qa; field; lra).
  assert (Eb : qb * (maxY - minY) = H - T) by (unfold qb; field; lra).
  assert (Hm : Rabs (Rmin qa qb - 1) <= 1e-10) by (apply Rnot_lt_le; intro C; rewrite (nlt_Fin_true _ _ C) in Hn; discriminate).
  assert (Hm2 : -1e-10 <= Rmin qa qb - 1 <= 1e-10)
    by (revert Hm; unfold Rabs; destruct (Rcase_abs (Rmin qa qb - 1)); intros; lra).
  pose proof (Rmin_l qa qb). pose proof (Rmin_r qa qb).
  split; [nra|]. split; [nra|].
  destruct (Rle_dec qa qb) as [E|E];
    [rewrite Rmin_left in Hm2 by exact E; left | rewrite Rmin_right in Hm2 by lra; right]; nra.
Qed.

(** ** translate *)

(** With no visible point, [translate] succeeds and leaves the points as the
    scatter [translate] left them. *)
Theorem translate_no_points (sc : list point -> list point) (fuel : nat)
    (chartSeries : list series) (index : nat) (s : store) (data : list point)
    (H0 : accumulateAllPoints chartSeries = []) :
  exists s3, translate sc (S fuel) chartSeries index s data = Translated s3 (sc data).
Proof.
  unfold translate. rewrite H0. eexists. reflexivity.
Qed.

(** With exactly one visible point in the chart, [translate] throws a
    TypeError: [placeBubbles] returns the flat array
    [[0, 0, x, y, radius]] of that point, whose third element is the [null]
    x of the point, and [positions[2][3]] reads a property of [null]. *)
Theorem translate_one_point_TypeError (sc : list point -> list point) (fuel : nat)
    (chartSeries : list series) (index : nat) (s : store) (data : list point)
    (H1 : List.length (accumulateAllPoints chartSeries) = 1%nat) :
  translate sc (S fuel) chartSeries index s data = TypeError.
Proof. exact (translate_one_point sc fuel chartSeries index s data H1). Qed.

Lemma translate_layout (sc : list point -> list point) (fuel : nat)
    (chartSeries : list series) (index : nat) (s s3 : store) (data data' : list point) :
  translate sc fuel chartSeries index s data = Translated s3 data' ->
  (2 <= List.length (accumulateAllPoints chartSeries))%nat ->
  exists out,
    placeBubbles fuel AllDataPoints
      (getRadius (set_allDataPoints (accumulateAllPoints chartSeries) s)) = Some (s3, out) /\
    positionPoints index (plotLeft s3) (plotTop s3) (diffX s3) (diffY s3)
      (map CBubble (rawPositions s3)) (sc data) = Some data' /\
    Permutation (map ids (rawPositions s3)) (map ids (accumulateAllPoints chartSeries)).
Proof.
  intros Ht H2. unfold translate in Ht.
  destruct (placeBubbles fuel AllDataPoints _) as [[s3' out]|] eqn:Ep; [|discriminate].
  destruct (getRadius_ids (set_allDataPoints (accumulateAllPoints chartSeries) s)) as [Hid _].
  cbn [allDataPoints set_allDataPoints] in Hid.
  assert (H2' : (2 <= List.length (getArr AllDataPoints
                  (getRadius (set_allDataPoints (accumulateAllPoints chartSeries) s))))%nat)
    by (cbn [getArr]; rewrite <- (length_map ids), Hid, length_map; exact H2).
  destruct (placeBubbles_result _ _ _ _ _ Ep H2') as (Ho & _ & _ & _ & _ & _ & Hp & _).
  cbn [getArr] in Hp. rewrite Hid in Hp. subst out.
  destruct (positionPoints _ _ _ _ _ _ _) as [d|] eqn:Epp; [|discriminate].
  injection Ht as <- <-. exists (map CBubble (rawPositions s3')). auto.
Qed.

(** When [translate] succeeds on a chart with at least two visible points
    (and distinct series indices), it keeps the number of points of the
    series, and point [j] of the series is either placed on its bubble
    ([plotX = x - plotLeft + diffX], [plotY = y - plotTop + diffY], with the
    marker and the label box of its radius) or, when no visible series with
    this index has a value [j], left as the scatter [translate] left it. *)
Theorem translate_places_points (sc : list point -> list point) (fuel : nat)
    (chartSeries : list series) (index : nat) (s s3 : store) (data data' : list point)
    (Ht : translate sc fuel chartSeries index s data = Translated s3 data')
    (H2 : (2 <= List.length (accumulateAllPoints chartSeries))%nat)
    (Hnd : NoDup (map sindex chartSeries)) :
  List.length data' = List.length (sc data) /\
  forall j pt, nth_error (sc data) j = Some pt ->
    (exists b, In b (rawPositions s3) /\ ids b = (index, j) /\
       nth_error data' j = Some (placePoint (plotLeft s3) (plotTop s3) (diffX s3) (diffY s3) b pt)) \/
    (~ (exists ser v, In ser chartSeries /\ visible ser = true /\ sindex ser = index /\
          nth_error (processedYData ser) j = Some v) /\
     nth_error data' j = Some pt).
Proof.
  destruct (translate_layout sc fuel chartSeries index s s3 data data' Ht H2)
    as (out & _ & Epp & Hp).
  destruct (positionPoints_bubbles _ _ _ _ _ _ _ _ Epp) as (Hlen & Hun & Hpl).
  assert (Hnd3 : NoDup (map ids (rawPositions s3))).
  { apply (Permutation_NoDup (Permutation_sym Hp)).
    apply accumulateAllPoints_ids_nodup. exact Hnd. }
  split; [exact Hlen|]. intros j pt Hpt.
  assert (Hdec : forall x y : nat * nat, {x = y} + {x <> y})
    by (intros x y; decide equality; apply Nat.eq_dec).
  destruct (in_dec Hdec (index, j) (map ids (rawPositions s3))) as [Hin | Hnin].
  - left. apply in_map_iff in Hin. destruct Hin as (b & Hb & Hin).
    exists b. split; [exact Hin|]. split; [exact Hb|].
    exact (Hpl Hnd3 b j pt Hin Hb Hpt).
  - right. split.
    + intros (ser & v & Hs & Hv & Hi & Hj). apply Hnin.
      apply (Permutation_in _ (Permutation_sym Hp)).
      change (index, j) with (ids (mkBubble JNull JNull v index j)).
      apply in_map. apply accumulateAllPoints_in. exists ser, j, v. rewrite <- Hi. auto.
    + rewrite Hun; [exact Hpt|]. intros b Hb Heq. apply Hnin. rewrite <- Heq. apply in_map. exact Hb.
Qed.

(** When a visible series with this index has a value [j] but the series
    has no point [j] ([data[j]] is [undefined]), [translate] does not finish:
    it throws a TypeError (or the layout does not settle). *)
Theorem translate_missing_point_TypeError (sc : list point -> list point) (fuel : nat)
    (chartSeries : list series) (index : nat) (s : store) (data : list point)
    (ser : series) (j : nat) (v : jsval)
    (Hin : In ser chartSeries) (Hv : visible ser = true) (Hi : sindex ser = index)
    (Hj : nth_error (processedYData ser) j = Some v)
    (Hl : (List.length (sc data) <= j)%nat) :
  translate sc fuel chartSeries index s data = TypeError \/
  translate sc fuel chartSeries index s data = OutOfFuel.
Proof.
  assert (He : In (mkBubble JNull JNull v index j) (accumulateAllPoints chartSeries))
    by (apply accumulateAllPoints_in; exists ser, j, v; rewrite <- Hi; auto).
  destruct fuel as [|fuel]; [right; reflexivity|].
  destruct (accumulateAllPoints chartSeries) as [|p0 [|p1 rest]] eqn:E; [destruct He| |].
  - left. apply translate_one_point. rewrite E. reflexivity.
  - destruct (translate sc (S fuel) chartSeries index s data) as [s3 data'| |] eqn:Ht;
      [|left; reflexivity | right; reflexivity].
    exfalso.
    destruct (translate_layout sc (S fuel) chartSeries index s s3 data data' Ht)
      as (out & _ & Epp & Hp); [rewrite E; cbn; lia|].
    rewrite <- E in He.
    assert (Hb : In (index, j) (map ids (rawPositions s3))).
    { apply (Permutation_in _ (Permutation_sym Hp)).
      change (index, j) with (ids (mkBubble JNull JNull v index j)). apply in_map. exact He. }
    apply in_map_iff in Hb. destruct Hb as (b & Hb & Hinb).
    unfold ids in Hb. injection Hb as Hs Hp'.
    rewrite (positionPoints_missing _ _ _ _ _ _ _ b Hinb Hs) in Epp; [discriminate|].
    rewrite Hp'. exact Hl.
Qed.

(** ** checkOverlap, positionBubble, the sort and the bounding box *)

Lemma nadd_comm (x y : num) : nadd x y = nadd y x.
Proof. destruct x, y; simpl; try reflexivity; f_equal; ring. Qed.

Lemma sq_sub_sym (x y : num) : nmul (nsub x y) (nsub x y) = nmul (nsub y x) (nsub y x).
Proof. destruct x, y; cbn; try reflexivity; f_equal; ring. Qed.

(** [checkOverlap] does not depend on the order of its arguments, also
    for infinite and NaN coordinates and radii. *)
Theorem checkOverlap_sym (bubble1 bubble2 : bubble) :
  checkOverlap bubble1 bubble2 = checkOverlap bubble2 bubble1.
Proof.
  unfold checkOverlap.
  rewrite (sq_sub_sym (bx bubble1)), (sq_sub_sym (by' bubble1)), (nadd_comm (br bubble1)).
  reflexivity.
Qed.

Lemma nmul_zero_r (z : num) : nmul z (Fin 0) = Fin 0 \/ nmul z (Fin 0) = NaN.
Proof.
  destruct z as [a| | |]; simpl; [left; f_equal; ring | | | right; reflexivity];
    destruct (Req_EM_T 0 0) as [_|C]; [right; reflexivity | contradiction C; reflexivity
                                      |right; reflexivity | contradiction C; reflexivity].
Qed.

Lemma nacos_div_zero (x d : num) : d = Fin 0 \/ d = NaN -> nacos (ndiv x d) = NaN.
Proof.
  intros [-> | ->]; destruct x as [a| | |]; simpl; try reflexivity.
  - destruct (Req_EM_T 0 0) as [_|C]; [|contradiction C; reflexivity].
    destruct (Req_EM_T a 0); [reflexivity|]. destruct (Rlt_dec 0 a); reflexivity.
  - destruct (Rle_dec 0 0); reflexivity.
  - destruct (Rle_dec 0 0); reflexivity.
Qed.

(** When [lastBubble] and [newOrigin] have the same centre, the distance is
    0, the law-of-cosines ratio divides by 0 and [Math.acos] gives NaN: the
    new bubble gets NaN coordinates, whatever the radii. *)
Theorem positionBubble_same_centre (x y lr or : R) (ls lp os op : nat) (nextBubble : bubble) :
  positionBubble (finite_bubble x y lr ls lp) (finite_bubble x y or os op) nextBubble =
  mkBubble (JNum NaN) (JNum NaN) (bub_r nextBubble) (bub_series nextBubble)
           (bub_point nextBubble).
Proof.
  unfold positionBubble, finite_bubble. cbn [bx by' br bub_x bub_y bub_r tonum].
  fin_simp.
  replace ((x - x) * (x - x) + (y - y) * (y - y)) with 0 by ring.
  rewrite nsqrt_Fin, sqrt_0 by lra.
  rewrite nacos_div_zero by apply nmul_zero_r.
  rewrite nadd_NaN_r. cbn [nadd ncos nsin].
  rewrite !nmul_NaN_r. reflexivity.
Qed.

(** With numeric or [null] radii ([null] counting as 0), the sort of
    [placeBubbles] puts the bubbles in non-increasing order of radius and
    keeps each of them. *)
Theorem sortDesc_sorted (l : list bubble)
    (Hf : Forall (fun p => br p = Fin (realOf (br p))) l) :
  Sorted radius_desc (sortDesc l) /\ Permutation (sortDesc l) l.
Proof. split; [apply sortDesc_sorted_aux; exact Hf | apply sortDesc_perm]. Qed.

Lemma fold_bboxR_components (l : list bubble) (a b c d : R) :
  fold_left bboxStepR l (a, b, c, d) =
  (fold_left (fun m p => Rmin m (realOf (bx p) - realOf (br p))) l a,
   fold_left (fun m p => Rmax m (realOf (bx p) + realOf (br p))) l b,
   fold_left (fun m p => Rmin m (realOf (by' p) - realOf (br p))) l c,
   fold_left (fun m p => Rmax m (realOf (by' p) + realOf (br p))) l d).
Proof. revert a b c d. induction l as [|p ps IH]; intros; [reflexivity|]. apply IH. Qed.

Lemma fold_min_spec (f : bubble -> R) (l : list bubble) : forall a,
  let m := fold_left (fun m p => Rmin m (f p)) l a in
  m <= a /\ Forall (fun p => m <= f p) l /\ (m = a \/ exists p, In p l /\ m = f p).
Proof.
  induction l as [|p ps IH]; intros a; cbv zeta; cbn [fold_left];
    [split; [lra|split; [constructor | left; reflexivity]]|].
  destruct (IH (Rmin a (f p))) as (H1 & H2 & H3).
  pose proof (Rmin_l a (f p)). pose proof (Rmin_r a (f p)).
  split; [lra|]. split; [constructor; [lra | exact H2]|].
  destruct H3 as [E | (q & Hq & E)]; [|right; exists q; split; [right; exact Hq | exact E]].
  rewrite E. destruct (Rle_dec a (f p)) as [Ha|Ha].
  - left. apply Rmin_left. exact Ha.
  - right. exists p. split; [left; reflexivity|]. apply Rmin_right. lra.
Qed.

Lemma fold_max_spec (f : bubble -> R) (l : list bubble) : forall a,
  let m := fold_left (fun m p => Rmax m (f p)) l a in
  a <= m /\ Forall (fun p => f p <= m) l /\ (m = a \/ exists p, In p l /\ m = f p).
Proof.
  induction l as [|p ps IH]; intros a; cbv zeta; cbn [fold_left];
    [split; [lra|split; [constructor | left; reflexivity]]|].
  destruct (IH (Rmax a (f p))) as (H1 & H2 & H3).
  pose proof (Rmax_l a (f p)). pose proof (Rmax_r a (f p)).
  split; [lra|]. split; [constructor; [lra | exact H2]|].
  destruct H3 as [E | (q & Hq & E)]; [|right; exists q; split; [right; exact Hq | exact E]].
  rewrite E. destruct (Rle_dec (f p) a) as [Ha|Ha].
  - left. apply Rmax_left. exact Ha.
  - right. exists p. split; [left; reflexivity|]. apply Rmax_right. lra.
Qed.

Lemma first_fold_min (f : bubble -> R) (p : bubble) (ps : list bubble) :
  let m := fold_left (fun m q => Rmin m (f q)) ps (f p) in
  Forall (fun q => m <= f q) (p :: ps) /\ exists q, In q (p :: ps) /\ m = f q.
Proof.
  destruct (fold_min_spec f ps (f p)) as (H1 & H2 & H3).
  split; [constructor; assumption|].
  destruct H3 as [E | (q & Hq & E)]; [exists p; split; [left|]; auto | exists q; split; [right|]; auto].
Qed.

Lemma first_fold_max (f : bubble -> R) (p : bubble) (ps : list bubble) :
  let m := fold_left (fun m q => Rmax m (f q)) ps (f p) in
  Forall (fun q => f q <= m) (p :: ps) /\ exists q, In q (p :: ps) /\ m = f q.
Proof.
  destruct (fold_max_spec f ps (f p)) as (H1 & H2 & H3).
  split; [constructor; assumption|].
  destruct H3 as [E | (q & Hq & E)]; [exists p; split; [left|]; auto | exists q; split; [right|]; auto].
Qed.

(** For a non-empty list of finite bubbles, [bboxOf] (the [reduce] of
    [resizeRadius]) is the smallest box holding every circle: each circle
    lies inside it and each of its four sides touches some circle. *)
Theorem bboxOf_smallest_box (l : list bubble) (Hne : l <> []) (Hf : Forall finiteB l) :
  exists minX maxX minY maxY,
    bboxOf l = (Fin minX, Fin maxX, Fin minY, Fin maxY) /\
    Forall (fun p => minX <= realOf (bx p) - realOf (br p) /\
                     realOf (bx p) + realOf (br p) <= maxX /\
                     minY <= realOf (by' p) - realOf (br p) /\
                     realOf (by' p) + realOf (br p) <= maxY) l /\
    (exists p, In p l /\ minX = realOf (bx p) - realOf (br p)) /\
    (exists p, In p l /\ maxX = realOf (bx p) + realOf (br p)) /\
    (exists p, In p l /\ minY = realOf (by' p) - realOf (br p)) /\
    (exists p, In p l /\ maxY = realOf (by' p) + realOf (br p)).
Proof.
  rewrite (bboxOf_fin l Hne Hf).
  destruct l as [|p ps]; [contradiction|]. unfold bboxR. rewrite fold_bboxR_components.
  destruct (first_fold_min (fun q => realOf (bx q) - realOf (br q)) p ps) as [A1 A2].
  destruct (first_fold_max (fun q => realOf (bx q) + realOf (br q)) p ps) as [B1 B2].
  destruct (first_fold_min (fun q => realOf (by' q) - realOf (br q)) p ps) as [C1 C2].
  destruct (first_fold_max (fun q => realOf (by' q) + realOf (br q)) p ps) as [D1 D2].
  do 4 eexists. split; [reflexivity|]. split; [|auto].
  apply Forall_forall. intros q Hq.
  rewrite Forall_forall in A1, B1, C1, D1.
  repeat split; [apply A1 | apply B1 | apply C1 | apply D1]; exact Hq.
Qed.

(** * Instances of the hypotheses of the further properties *)

(** The two unit points with the default options. *)
Lemma getRadius_defaults_witness :
  options two_points_store = packedbubble_defaults /\
  (minRadius (getRadius two_points_store) = Some (Fin 10) /\
   maxRadius (getRadius two_points_store) = Some (Fin 100) /\
   allDataPoints (getRadius two_points_store) =
     map (fun p => set_radius (radiusOf true (Fin 10) (Fin 100) (Fin (100 - 10)) (bub_r p)) p)
         (allDataPoints two_points_store)).
Proof. split; [reflexivity|]. apply (getRadius_defaults two_points_store). reflexivity. Defined.

(** The sizes 10 and 100, the values 20 and 50. *)
Lemma radius_monotone_above_min_witness :
  (20 <> 0 /\ 50 <> 0 /\ 10 <= 20 /\ 20 <= 50) /\
  exists r1 r2,
    radiusOf true (Fin 10) (Fin 100) (Fin (100 - 10)) (JNum (Fin 20)) = JNum (Fin r1) /\
    radiusOf true (Fin 10) (Fin 100) (Fin (100 - 10)) (JNum (Fin 50)) = JNum (Fin r2) /\
    r1 <= r2.
Proof.
  split; [split; [intro; lra | split; [intro; lra | split; lra]]|].
  apply (radius_monotone_above_min true 10 100 20 50); [intro; lra | intro; lra | lra | lra].
Defined.

(** The sizes 10 and 100, the value 200. *)
Lemma radius_above_max_witness :
  (200 <> 0 /\ 10 < 100 /\ 100 < 200) /\
  exists r,
    radiusOf true (Fin 10) (Fin 100) (Fin (100 - 10)) (JNum (Fin 200)) = JNum (Fin r) /\
    100 / 2 < r.
Proof.
  split; [split; [intro; lra | split; lra]|].
  apply (radius_above_max true 10 100 200); [intro; lra | lra | lra].
Defined.

(** The two unit points in the 2 x 4 plot area: one packing pass, scale
    factor 1. *)
Lemma placeBubbles_each_point_once_witness :
  placeBubbles 1 AllDataPoints two_points_store =
    Some (pair_final two_points_store, map CBubble two_points_layout) /\
  (2 <= List.length (getArr AllDataPoints two_points_store))%nat /\
  (map CBubble two_points_layout = map CBubble (rawPositions (pair_final two_points_store)) /\
   rawPositions (pair_final two_points_store) = List.concat (stages (pair_final two_points_store)) /\
   Permutation (map ids (rawPositions (pair_final two_points_store)))
               (map ids (getArr AllDataPoints two_points_store))).
Proof.
  assert (E : placeBubbles 1 AllDataPoints two_points_store =
                Some (pair_final two_points_store, map CBubble two_points_layout))
    by (apply pair_run; reflexivity).
  split; [exact E|]. split; [cbn; lia|].
  exact (placeBubbles_each_point_once 1 AllDataPoints two_points_store _ _ E ltac:(cbn; lia)).
Defined.

Lemma placeBubbles_seeds_witness :
  placeBubbles 1 AllDataPoints two_points_store =
    Some (pair_final two_points_store, map CBubble two_points_layout) /\
  (2 <= List.length (getArr AllDataPoints two_points_store))%nat /\
  exists p0 p1 xs, rawPositions (pair_final two_points_store) = p0 :: p1 :: xs /\
    bx p0 = Fin 0 /\ by' p0 = Fin 0 /\
    bx p1 = Fin 0 /\ by' p1 = nsub (nsub (Fin 0) (br p1)) (br p0).
Proof.
  assert (E : placeBubbles 1 AllDataPoints two_points_store =
                Some (pair_final two_points_store, map CBubble two_points_layout))
    by (apply pair_run; reflexivity).
  split; [exact E|]. split; [cbn; lia|].
  exact (placeBubbles_seeds 1 AllDataPoints two_points_store _ _ E ltac:(cbn; lia)).
Defined.

Lemma placeBubbles_centred_witness :
  placeBubbles 1 AllDataPoints two_points_store =
    Some (pair_final two_points_store, map CBubble two_points_layout) /\
  (2 <= List.length (getArr AllDataPoints two_points_store))%nat /\
  (plotLeft (pair_final two_points_store) = plotLeft two_points_store /\
   plotTop (pair_final two_points_store) = plotTop two_points_store /\
   plotWidth (pair_final two_points_store) = plotWidth two_points_store /\
   plotHeight (pair_final two_points_store) = plotHeight two_points_store /\
   nlt (Fin 1e-10) (nabs (nsub (smallerDimension (pair_final two_points_store)
                                  (bboxOf (rawPositions (pair_final two_points_store))))
                               (Fin 1))) = false /\
   diffX (pair_final two_points_store) =
     Some (centreX (pair_final two_points_store) (bboxOf (rawPositions (pair_final two_points_store)))) /\
   diffY (pair_final two_points_store) =
     Some (centreY (pair_final two_points_store) (bboxOf (rawPositions (pair_final two_points_store))))).
Proof.
  assert (E : placeBubbles 1 AllDataPoints two_points_store =
                Some (pair_final two_points_store, map CBubble two_points_layout))
    by (apply pair_run; reflexivity).
  split; [exact E|]. split; [cbn; lia|].
  exact (placeBubbles_centred 1 AllDataPoints two_points_store _ _ E ltac:(cbn; lia)).
Defined.

(** The layout spans [-1, 1] by [-3, 1] in the 2 x 4 plot area. *)
Lemma placeBubbles_fits_witness :
  placeBubbles 1 AllDataPoints two_points_store =
    Some (pair_final two_points_store, map CBubble two_points_layout) /\
  (2 <= List.length (getArr AllDataPoints two_points_store))%nat /\
  Forall finiteB (rawPositions (pair_final two_points_store)) /\
  bboxR (rawPositions (pair_final two_points_store)) = (-1, 1, -3, 1) /\
  ((1 - 1e-10) * (1 - -1) <= 2 - 0 /\ (1 - 1e-10) * (1 - -3) <= 4 - 0 /\
   (2 - 0 <= (1 + 1e-10) * (1 - -1) \/ 4 - 0 <= (1 + 1e-10) * (1 - -3))).
Proof.
  assert (E : placeBubbles 1 AllDataPoints two_points_store =
                Some (pair_final two_points_store, map CBubble two_points_layout))
    by (apply pair_run; reflexivity).
  split; [exact E|]. split; [cbn; lia|].
  split; [exact finite_pair|]. split; [exact bboxR_pair|].
  exact (placeBubbles_fits 1 AllDataPoints two_points_store _ _ 2 4 0 0 (-1) 1 (-3) 1
           E ltac:(cbn; lia) eq_refl eq_refl eq_refl eq_refl finite_pair bboxR_pair
           ltac:(lra) ltac:(lra)).
Defined.

(** No series. *)
Lemma translate_no_points_witness :
  accumulateAllPoints [] = [] /\
  exists s3, translate (fun d => d) 1 [] 0 translate_store [blank_point] =
             Translated s3 [blank_point].
Proof.
  split; [reflexivity|].
  exact (translate_no_points (fun d => d) 0 [] 0 translate_store [blank_point] eq_refl).
Defined.

(** One visible series with the single value 5. *)
Lemma translate_one_point_TypeError_witness :
  List.length (accumulateAllPoints [mkSeries true [JNum (Fin 5)] 0]) = 1%nat /\
  translate (fun d => d) 1 [mkSeries true [JNum (Fin 5)] 0] 0 translate_store [blank_point]
    = TypeError.
Proof.
  split; [reflexivity|].
  exact (translate_one_point_TypeError (fun d => d) 0 [mkSeries true [JNum (Fin 5)] 0] 0
           translate_store [blank_point] eq_refl).
Defined.

(** The series 0 with the values 5 and 5 and two points. *)
Lemma translate_places_points_witness :
  let s3 := pair_final (getRadius (set_allDataPoints
              (accumulateAllPoints [two_values_series]) translate_store)) in
  let placed := [placePoint (Fin 0) (Fin 0) (Some (Fin 1)) (Some (Fin 3))
                   (seed0 (unit_point 0)) blank_point;
                 placePoint (Fin 0) (Fin 0) (Some (Fin 1)) (Some (Fin 3))
                   (seed1 (unit_point 0) (unit_point 1)) blank_point] in
  translate (fun d => d) 1 [two_values_series] 0 translate_store [blank_point; blank_point]
    = Translated s3 placed /\
  (2 <= List.length (accumulateAllPoints [two_values_series]))%nat /\
  NoDup (map sindex [two_values_series]) /\
  (List.length placed = List.length [blank_point; blank_point] /\
   forall j pt, nth_error [blank_point; blank_point] j = Some pt ->
     (exists b, In b (rawPositions s3) /\ ids b = (0%nat, j) /\
        nth_error placed j = Some (placePoint (plotLeft s3) (plotTop s3) (diffX s3) (diffY s3) b pt)) \/
     (~ (exists ser v, In ser [two_values_series] /\ visible ser = true /\ sindex ser = 0%nat /\
           nth_error (processedYData ser) j = Some v) /\
      nth_error placed j = Some pt)).
Proof.
  intros s3 placed.
  assert (E : translate (fun d => d) 1 [two_values_series] 0 translate_store
                [blank_point; blank_point] = Translated s3 placed)
    by (rewrite translate_two_values; reflexivity).
  assert (H2 : (2 <= List.length (accumulateAllPoints [two_values_series]))%nat)
    by (cbn; lia).
  assert (Hnd : NoDup (map sindex [two_values_series]))
    by (constructor; [intros [] | constructor]).
  split; [exact E|]. split; [exact H2|]. split; [exact Hnd|].
  exact (translate_places_points (fun d => d) 1 [two_values_series] 0 translate_store s3
           [blank_point; blank_point] placed E H2 Hnd).
Defined.

(** The series 0 has the values 5 and 5 but no point. *)
Lemma translate_missing_point_TypeError_witness :
  (In two_values_series [two_values_series] /\ visible two_values_series = true /\
   sindex two_values_series = 0%nat /\
   nth_error (processedYData two_values_series) 0 = Some (JNum (Fin 5)) /\
   (List.length ((fun d : list point => d) []) <= 0)%nat) /\
  (translate (fun d => d) 1 [two_values_series] 0 translate_store [] = TypeError \/
   translate (fun d => d) 1 [two_values_series] 0 translate_store [] = OutOfFuel).
Proof.
  split; [split; [left; reflexivity | split; [reflexivity | split; [reflexivity | split; [reflexivity | cbn; lia]]]]|].
  exact (translate_missing_point_TypeError (fun d => d) 1 [two_values_series] 0 translate_store []
           two_values_series 0 (JNum (Fin 5)) (or_introl eq_refl) eq_refl eq_refl eq_refl
           ltac:(cbn; lia)).
Defined.

(** Radii 1 and 3. *)
Lemma sortDesc_sorted_witness :
  Forall (fun p => br p = Fin (realOf (br p)))
    [unit_point 0; mkBubble JNull JNull (JNum (Fin 3)) 0 1] /\
  (Sorted radius_desc (sortDesc [unit_point 0; mkBubble JNull JNull (JNum (Fin 3)) 0 1]) /\
   Permutation (sortDesc [unit_point 0; mkBubble JNull JNull (JNum (Fin 3)) 0 1])
               [unit_point 0; mkBubble JNull JNull (JNum (Fin 3)) 0 1]).
Proof.
  assert (Hf : Forall (fun p => br p = Fin (realOf (br p)))
                 [unit_point 0; mkBubble JNull JNull (JNum (Fin 3)) 0 1])
    by (repeat constructor).
  split; [exact Hf|]. exact (sortDesc_sorted _ Hf).
Defined.

(** The two-bubble layout. *)
Lemma bboxOf_smallest_box_witness :
  (two_points_layout <> [] /\ Forall finiteB two_points_layout) /\
  exists minX maxX minY maxY,
    bboxOf two_points_layout = (Fin minX, Fin maxX, Fin minY, Fin maxY) /\
    Forall (fun p => minX <= realOf (bx p) - realOf (br p) /\
                     realOf (bx p) + realOf (br p) <= maxX /\
                     minY <= realOf (by' p) - realOf (br p) /\
                     realOf (by' p) + realOf (br p) <= maxY) two_points_layout /\
    (exists p, In p two_points_layout /\ minX = realOf (bx p) - realOf (br p)) /\
    (exists p, In p two_points_layout /\ maxX = realOf (bx p) + realOf (br p)) /\
    (exists p, In p two_points_layout /\ minY = realOf (by' p) - realOf (br p)) /\
    (exists p, In p two_points_layout /\ maxY = realOf (by' p) + realOf (br p)).
Proof.
  assert (Hne : two_points_layout <> []) by discriminate.
  split; [split; [exact Hne | exact finite_pair]|].
  exact (bboxOf_smallest_box two_points_layout Hne finite_pair).
Defined.
